(** * fluent: a chainable HTTP client

    A shallow embedding of [client.go] and [response.go] of the package
    [fluent], together with executable models of the parts of the Go
    standard library the package calls ([strings], [net/url], [net/textproto],
    [net/http], [errors], [io]; the library as of Go 1.21).

    - Go strings and byte slices are byte sequences and are modelled by
      [string], a sequence of 8-bit [ascii] characters.
    - [url.Values] and [http.Header] are Go maps from strings to slices of
      strings and are modelled by [gmap string (list string)].  Go leaves the
      order of a [range] over a map open; what the package builds with such
      loops is shown not to depend on it.
    - The client is a mutable object: every method takes the state of the
      client and returns the new one.
    - The transport is a function from a request and the state of the world
      to a reply and the new state of the world.
    - [json.Marshal] and the JSON decoder are interfaces ([Marshaler],
      [Decoder]) over the types of the values.

    The file has three parts: the model, the vocabulary of the statements
    with the concrete clients of the scenarios, and the properties. *)

From Stdlib Require Import ZArith NArith Ascii String.
From stdpp Require Import base tactics option list strings gmap sorting.

Local Open Scope Z_scope.
Local Open Scope stdpp_scope.

(** ** Bytes *)

Module Char.
Definition code (c : ascii) : N := N_of_ascii c.

(** [lo <= c && c <= hi] *)
Definition between (lo hi c : ascii) : bool :=
  (code lo <=? code c)%N && (code c <=? code hi)%N.

Definition is_lower (c : ascii) : bool := between "a" "z" c.
Definition is_upper (c : ascii) : bool := between "A" "Z" c.
Definition is_digit (c : ascii) : bool := between "0" "9" c.
Definition is_alnum (c : ascii) : bool := is_lower c || is_upper c || is_digit c.

Definition eqb (a b : ascii) : bool := Ascii.eqb a b.

(** the double quote, byte 0x22 *)
Definition dquote : ascii := ascii_of_N 34.

(** [c + ('a' - 'A')] and [c - ('a' - 'A')] on letters *)
Definition to_lower (c : ascii) : ascii :=
  if is_upper c then ascii_of_N (code c + 32) else c.
Definition to_upper (c : ascii) : ascii :=
  if is_lower c then ascii_of_N (code c - 32) else c.

(** membership of a byte in a literal set of bytes *)
Fixpoint one_of (set : string) (c : ascii) : bool :=
  match set with
  | EmptyString => false
  | String a set' => eqb a c || one_of set' c
  end.
End Char.

(** ** Package [strings] *)

Module Strings.
(** [s[n:]] *)
Fixpoint drop (n : nat) (s : string) : string :=
  match n, s with
  | O, _ => s
  | S _, EmptyString => EmptyString
  | S n', String _ s' => drop n' s'
  end.

(** [s[:n]] *)
Fixpoint take (n : nat) (s : string) : string :=
  match n, s with
  | O, _ => EmptyString
  | S _, EmptyString => EmptyString
  | S n', String a s' => String a (take n' s')
  end.

(** [len(s) >= len(prefix) && s[:len(prefix)] == prefix] *)
Definition HasPrefix (s prefix : string) : bool :=
  Nat.leb (String.length prefix) (String.length s)
  && bool_decide (take (String.length prefix) s = prefix).

(** [len(s) >= len(suffix) && s[len(s)-len(suffix):] == suffix] *)
Definition HasSuffix (s suffix : string) : bool :=
  Nat.leb (String.length suffix) (String.length s)
  && bool_decide (drop (String.length s - String.length suffix) s = suffix).

Definition TrimPrefix (s prefix : string) : string :=
  if HasPrefix s prefix then drop (String.length prefix) s else s.

Definition TrimSuffix (s suffix : string) : string :=
  if HasSuffix s suffix
  then take (String.length s - String.length suffix) s
  else s.

(** [Cut] slices [s] around the first instance of [sep]. *)
Fixpoint Cut (s sep : string) : string * string * bool :=
  if HasPrefix s sep then (EmptyString, drop (String.length sep) s, true)
  else match s with
       | EmptyString => (EmptyString, EmptyString, false)
       | String a s' =>
           let '(before, after, found) := Cut s' sep in
           (String a before, after, found)
       end.

Definition Contains (s substr : string) : bool := snd (Cut s substr).

(** [Index] of the first instance of [substr], [None] standing for -1. *)
Fixpoint Index (s substr : string) : option nat :=
  if HasPrefix s substr then Some O
  else match s with
       | EmptyString => None
       | String _ s' => S <$> Index s' substr
       end.

(** [LastIndex] of a one-byte separator, [None] standing for -1. *)
Fixpoint LastIndexByte (s : string) (c : ascii) : option nat :=
  match s with
  | EmptyString => None
  | String a s' =>
      match LastIndexByte s' c with
      | Some i => Some (S i)
      | None => if Char.eqb a c then Some O else None
      end
  end.

(** [Count] of the non-overlapping instances of a one-byte separator. *)
Fixpoint CountByte (s : string) (c : ascii) : nat :=
  match s with
  | EmptyString => O
  | String a s' => (if Char.eqb a c then 1 else 0)%nat + CountByte s' c
  end.

Fixpoint ToLower (s : string) : string :=
  match s with
  | EmptyString => EmptyString
  | String a s' => String (Char.to_lower a) (ToLower s')
  end.

Fixpoint all (p : ascii -> bool) (s : string) : bool :=
  match s with
  | EmptyString => true
  | String a s' => p a && all p s'
  end.

(** [strings.Join] *)
Fixpoint Join (elems : list string) (sep : string) : string :=
  match elems with
  | [] => EmptyString
  | [e] => e
  | e :: rest => e +:+ sep +:+ Join rest sep
  end.
End Strings.

(** ** Errors

    [HTTPError] is the status error of [client.go]. *)

Module HTTPError.
Record t := mk {
  StatusCode : Z;
  Status : string;
  Method : string;
  URL : string;
  Body : string
}.
End HTTPError.
Abbreviation HTTPError := HTTPError.t.

(** An error value created outside this package: by [net/url],
    [encoding/json], [net/http], [io] or the network stream of a response.
    Those packages do not know this package, so no such error is an
    [HTTPError] or has [ErrNotOK] in its chain. *)
Record ForeignError := mkForeignError {
  origin : string;
  text : string
}.

(** The error values that can flow through this package.
  - [ErrNotOK] is the sentinel [errors.New("invalid status code")];
  - [HTTPErr e] is a [*HTTPError];
  - [Errorf prefix e] is [fmt.Errorf(prefix + "%w", e)];
  - [External e] is an error of another package. *)
Inductive error :=
| ErrNotOK
| HTTPErr (e : HTTPError)
| Errorf (prefix : string) (wrapped : error)
| External (e : ForeignError).

Inductive result (A : Type) :=
| Ok (a : A)
| Err (e : error).
Arguments Ok {A} a.
Arguments Err {A} e.

Definition foreign {A : Type} (pkg msg : string) : result A :=
  Err (External (mkForeignError pkg msg)).

Global Instance result_ret : MRet result := fun A a => Ok a.
Global Instance result_bind : MBind result := fun A B k r =>
  match r with
  | Ok a => k a
  | Err e => Err e
  end.

(** [func (e *HTTPError) Error() string] *)
Definition HTTPError_Error (e : HTTPError) : string :=
  if Nat.eqb (String.length (HTTPError.Body e)) 0
  then HTTPError.Method e +:+ " " +:+ HTTPError.URL e +:+ ": " +:+ HTTPError.Status e
  else HTTPError.Method e +:+ " " +:+ HTTPError.URL e +:+ ": " +:+ HTTPError.Status e
       +:+ ": " +:+ HTTPError.Body e.

(** [func (e *HTTPError) Unwrap() error] *)
Definition HTTPError_Unwrap (e : HTTPError) : error := ErrNotOK.

Module errors.
Global Instance HTTPError_eq_dec : EqDecision HTTPError.
Proof. solve_decision. Defined.
Global Instance ForeignError_eq_dec : EqDecision ForeignError.
Proof. solve_decision. Defined.
Global Instance error_eq_dec : EqDecision error.
Proof. solve_decision. Defined.

(** [errors.Unwrap]: the [Unwrap() error] method of the value, if it has one. *)
Definition Unwrap (err : error) : option error :=
  match err with
  | ErrNotOK => None
  | HTTPErr e => Some (HTTPError_Unwrap e)
  | Errorf _ wrapped => Some wrapped
  | External _ => None
  end.

(** [errors.Is(err, target)] for a non-nil [err]: walk the chain of [err]
    and compare each link with [target].  (Two [HTTPErr] values are compared
    by content here, by pointer in Go; no target used below is one.) *)
Fixpoint Is (err target : error) : bool :=
  bool_decide (err = target) ||
  match err with
  | ErrNotOK => false
  | HTTPErr e => bool_decide (HTTPError_Unwrap e = target)
  | Errorf _ wrapped => Is wrapped target
  | External _ => false
  end.

(** [errors.As(err, &he)] with [he] of type [*HTTPError] *)
Fixpoint As_HTTPError (err : error) : option HTTPError :=
  match err with
  | ErrNotOK => None
  | HTTPErr e => Some e
  | Errorf _ wrapped => As_HTTPError wrapped
  | External _ => None
  end.
End errors.

(** ** Package [net/url]

    A model of [Parse], [URL.String], [URL.Query], [ParseQuery],
    [Values.Add], [Values.Encode] and of the escaping functions underneath,
    following the library's source function by function. *)

Module url.

Inductive encoding :=
| encodePath
| encodePathSegment
| encodeHost
| encodeZone
| encodeUserPassword
| encodeQueryComponent
| encodeFragment.

Global Instance encoding_eq_dec : EqDecision encoding.
Proof. solve_decision. Defined.

Definition ishex (c : ascii) : bool :=
  Char.is_digit c || Char.between "a" "f" c || Char.between "A" "F" c.

Definition unhex (c : ascii) : N :=
  if Char.is_digit c then (Char.code c - Char.code "0")%N
  else if Char.between "a" "f" c then (Char.code c - Char.code "a" + 10)%N
  else if Char.between "A" "F" c then (Char.code c - Char.code "A" + 10)%N
  else 0%N.

(** [unhex(a)<<4 | unhex(b)] *)
Definition unhex2 (a b : ascii) : ascii :=
  ascii_of_N (N.lor (N.shiftl (unhex a) 4) (unhex b)).

(** ["0123456789ABCDEF"[n]] *)
Definition upperhex (n : N) : ascii :=
  if (n <? 10)%N then ascii_of_N (Char.code "0" + n)
  else ascii_of_N (Char.code "A" + (n - 10)).

(** [shouldEscape] reports whether the byte must be escaped in the given
    part of a URL. *)
Definition shouldEscape (c : ascii) (mode : encoding) : bool :=
  if Char.is_alnum c then false
  else if (bool_decide (mode = encodeHost) || bool_decide (mode = encodeZone))
          && (Char.one_of "!$&'()*+,;=:[]<>" c || Char.eqb c Char.dquote) then false
  else if Char.one_of "-_.~" c then false
  else if Char.one_of "$&+,/:;=?@" c then
    match mode with
    | encodePath => Char.eqb c "?"
    | encodePathSegment => Char.one_of "/;,?" c
    | encodeUserPassword => Char.one_of "@/?:" c
    | encodeQueryComponent => true
    | encodeFragment => false
    | encodeHost | encodeZone => true
    end
  else if bool_decide (mode = encodeFragment) && Char.one_of "!()*" c then false
  else true.

(** [escape]: a space becomes [+] in a query component, any other byte to
    escape becomes [%XX] with upper-case hexadecimal digits. *)
Fixpoint escape (s : string) (mode : encoding) : string :=
  match s with
  | EmptyString => EmptyString
  | String c s' =>
      if shouldEscape c mode then
        if Char.eqb c " " && bool_decide (mode = encodeQueryComponent)
        then String "+" (escape s' mode)
        else String "%" (String (upperhex (N.shiftr (Char.code c) 4))
                          (String (upperhex (N.land (Char.code c) 15))
                             (escape s' mode)))
      else String c (escape s' mode)
  end.

(** First loop of [unescape]: every [%] starts a well-formed escape that
    the mode allows, and a host holds no byte that would need escaping. *)
Fixpoint unescape_check (s : string) (mode : encoding) : result unit :=
  match s with
  | EmptyString => Ok tt
  | String c s' =>
      if Char.eqb c "%" then
        match s' with
        | String a (String b rest) =>
            if negb (ishex a && ishex b) then
              foreign "net/url" "invalid URL escape"
            else if bool_decide (mode = encodeHost) && (unhex a <? 8)%N
                    && negb (Char.eqb a "2" && Char.eqb b "5") then
              foreign "net/url" "invalid URL escape"
            else if bool_decide (mode = encodeZone)
                    && negb (Char.eqb a "2" && Char.eqb b "5")
                    && negb (Char.eqb (unhex2 a b) " ")
                    && shouldEscape (unhex2 a b) encodeHost then
              foreign "net/url" "invalid URL escape"
            else unescape_check rest mode
        | _ => foreign "net/url" "invalid URL escape"
        end
      else if Char.eqb c "+" then unescape_check s' mode
      else if (bool_decide (mode = encodeHost) || bool_decide (mode = encodeZone))
              && (Char.code c <? 128)%N && shouldEscape c encodeHost then
        foreign "net/url" "invalid character in host name"
      else unescape_check s' mode
  end.

(** Second loop of [unescape], run on a string that passed the first. *)
Fixpoint unescape_build (s : string) (mode : encoding) : string :=
  match s with
  | EmptyString => EmptyString
  | String c s' =>
      if Char.eqb c "%" then
        match s' with
        | String a (String b rest) => String (unhex2 a b) (unescape_build rest mode)
        | _ => EmptyString
        end
      else if Char.eqb c "+" then
        String (if bool_decide (mode = encodeQueryComponent) then " "%char else "+"%char)
               (unescape_build s' mode)
      else String c (unescape_build s' mode)
  end.

Definition unescape (s : string) (mode : encoding) : result string :=
  _ ← unescape_check s mode; Ok (unescape_build s mode).

Definition QueryEscape (s : string) : string := escape s encodeQueryComponent.
Definition QueryUnescape (s : string) : result string := unescape s encodeQueryComponent.

(** [validEncoded] reports whether [s] is a valid encoded path or fragment. *)
Definition validEncoded (s : string) (mode : encoding) : bool :=
  Strings.all (fun c =>
    Char.one_of "!$&'()*+,;=:@" c || Char.one_of "[]" c || Char.eqb c "%"
    || negb (shouldEscape c mode)) s.

Record Userinfo := mkUserinfo {
  username : string;
  password : string;
  passwordSet : bool
}.

Record URL := mkURL {
  Scheme : string;
  Opaque : string;
  User : option Userinfo;
  Host : string;
  Path : string;
  RawPath : string;
  OmitHost : bool;
  ForceQuery : bool;
  RawQuery : string;
  Fragment : string;
  RawFragment : string
}.

Global Instance Userinfo_eq_dec : EqDecision Userinfo.
Proof. solve_decision. Defined.
Global Instance URL_eq_dec : EqDecision URL.
Proof. solve_decision. Defined.

(** [new(URL)] *)
Definition empty : URL :=
  mkURL EmptyString EmptyString None EmptyString EmptyString EmptyString
        false false EmptyString EmptyString EmptyString.

Definition set_Path (u : URL) (p : string) : URL :=
  mkURL (Scheme u) (Opaque u) (User u) (Host u) p (RawPath u)
        (OmitHost u) (ForceQuery u) (RawQuery u) (Fragment u) (RawFragment u).

Definition set_RawQuery (u : URL) (q : string) : URL :=
  mkURL (Scheme u) (Opaque u) (User u) (Host u) (Path u) (RawPath u)
        (OmitHost u) (ForceQuery u) q (Fragment u) (RawFragment u).

(** [getScheme]: the loop over [rawURL], [s] being [rawURL[i:]]. *)
Fixpoint getScheme_from (rawURL : string) (i : nat) (s : string)
  : result (string * string) :=
  match s with
  | EmptyString => Ok (EmptyString, rawURL)
  | String c s' =>
      if Char.is_lower c || Char.is_upper c then getScheme_from rawURL (S i) s'
      else if Char.is_digit c || Char.one_of "+-." c then
        if Nat.eqb i 0 then Ok (EmptyString, rawURL)
        else getScheme_from rawURL (S i) s'
      else if Char.eqb c ":" then
        if Nat.eqb i 0 then foreign "net/url" "missing protocol scheme"
        else Ok (Strings.take i rawURL, s')
      else Ok (EmptyString, rawURL)
  end.

Definition getScheme (rawURL : string) : result (string * string) :=
  getScheme_from rawURL 0 rawURL.

(** [stringContainsCTLByte] *)
Definition stringContainsCTLByte (s : string) : bool :=
  negb (Strings.all (fun b => negb ((Char.code b <? 32)%N || (Char.code b =? 127)%N)) s).

(** [validOptionalPort]: empty, or a colon followed by digits. *)
Definition validOptionalPort (port : string) : bool :=
  match port with
  | EmptyString => true
  | String c digits => Char.eqb c ":" && Strings.all Char.is_digit digits
  end.

(** [validUserinfo] *)
Definition validUserinfo (s : string) : bool :=
  Strings.all (fun r => Char.is_alnum r || Char.one_of "-._:~!$&'()*+,;=%@" r) s.

(** [parseHost] *)
Definition parseHost (host : string) : result string :=
  if Strings.HasPrefix host "[" then
    match Strings.LastIndexByte host "]" with
    | None => foreign "net/url" "missing ']' in host"
    | Some i =>
        if negb (validOptionalPort (Strings.drop (S i) host)) then
          foreign "net/url" "invalid port after host"
        else
          match Strings.Index (Strings.take i host) "%25" with
          | Some zone =>
              host1 ← unescape (Strings.take zone host) encodeHost;
              host2 ← unescape (Strings.drop zone (Strings.take i host)) encodeZone;
              host3 ← unescape (Strings.drop i host) encodeHost;
              Ok (host1 +:+ host2 +:+ host3)
          | None => unescape host encodeHost
          end
    end
  else
    match Strings.LastIndexByte host ":" with
    | Some i =>
        if negb (validOptionalPort (Strings.drop i host)) then
          foreign "net/url" "invalid port after host"
        else unescape host encodeHost
    | None => unescape host encodeHost
    end.

(** [parseAuthority] *)
Definition parseAuthority (authority : string) : result (option Userinfo * string) :=
  match Strings.LastIndexByte authority "@" with
  | None => host ← parseHost authority; Ok (None, host)
  | Some i =>
      host ← parseHost (Strings.drop (S i) authority);
      let userinfo := Strings.take i authority in
      if negb (validUserinfo userinfo) then foreign "net/url" "invalid userinfo"
      else if negb (Strings.Contains userinfo ":") then
        userinfo' ← unescape userinfo encodeUserPassword;
        Ok (Some (mkUserinfo userinfo' EmptyString false), host)
      else
        let '(username, password, _) := Strings.Cut userinfo ":" in
        username' ← unescape username encodeUserPassword;
        password' ← unescape password encodeUserPassword;
        Ok (Some (mkUserinfo username' password' true), host)
  end.

(** [func (u *URL) setPath(p string) error] *)
Definition setPath (u : URL) (p : string) : result URL :=
  path ← unescape p encodePath;
  let rawPath :=
    if bool_decide (p = escape path encodePath) then EmptyString else p in
  Ok (mkURL (Scheme u) (Opaque u) (User u) (Host u) path rawPath
            (OmitHost u) (ForceQuery u) (RawQuery u) (Fragment u) (RawFragment u)).

(** [func (u *URL) setFragment(f string) error] *)
Definition setFragment (u : URL) (f : string) : result URL :=
  frag ← unescape f encodeFragment;
  let rawFragment :=
    if bool_decide (f = escape frag encodeFragment) then EmptyString else f in
  Ok (mkURL (Scheme u) (Opaque u) (User u) (Host u) (Path u) (RawPath u)
            (OmitHost u) (ForceQuery u) (RawQuery u) frag rawFragment).

(** [parse(rawURL, viaRequest)]: a URL without its fragment. *)
Definition parse (rawURL : string) (viaRequest : bool) : result URL :=
  if stringContainsCTLByte rawURL then
    foreign "net/url" "invalid control character in URL"
  else if bool_decide (rawURL = EmptyString) && viaRequest then
    foreign "net/url" "empty url"
  else if bool_decide (rawURL = "*") then Ok (set_Path empty "*")
  else
    '(scheme, rest) ← getScheme rawURL;
    let scheme := Strings.ToLower scheme in
    let '(rest, rawQuery, forceQuery) :=
      if Strings.HasSuffix rest "?" && Nat.eqb (Strings.CountByte rest "?") 1
      then (Strings.take (String.length rest - 1) rest, EmptyString, true)
      else let '(before, after, _) := Strings.Cut rest "?" in (before, after, false) in
    if negb (Strings.HasPrefix rest "/") && negb (bool_decide (scheme = EmptyString)) then
      Ok (mkURL scheme rest None EmptyString EmptyString EmptyString
                false forceQuery rawQuery EmptyString EmptyString)
    else if negb (Strings.HasPrefix rest "/") && viaRequest then
      foreign "net/url" "invalid URI for request"
    else if negb (Strings.HasPrefix rest "/")
            && Strings.Contains (fst (fst (Strings.Cut rest "/"))) ":" then
      foreign "net/url" "first path segment in URL cannot contain colon"
    else
      '(user, host, omitHost, rest) ←
        (if (negb (bool_decide (scheme = EmptyString))
             || negb viaRequest && negb (Strings.HasPrefix rest "///"))
            && Strings.HasPrefix rest "//"
         then
           let authority := Strings.drop 2 rest in
           let '(authority, rest) :=
             match Strings.Index authority "/" with
             | Some i => (Strings.take i authority, Strings.drop i authority)
             | None => (authority, EmptyString)
             end in
           '(user, host) ← parseAuthority authority;
           Ok (user, host, false, rest)
         else if negb (bool_decide (scheme = EmptyString)) && Strings.HasPrefix rest "/"
         then Ok (None, EmptyString, true, rest)
         else Ok (None, EmptyString, false, rest));
      setPath (mkURL scheme EmptyString user host EmptyString EmptyString
                     omitHost forceQuery rawQuery EmptyString EmptyString) rest.

(** [url.Parse]: cut off the fragment, parse the rest, set the fragment. *)
Definition Parse (rawURL : string) : result URL :=
  let '(u, frag, _) := Strings.Cut rawURL "#" in
  url ← parse u false;
  if bool_decide (frag = EmptyString) then Ok url else setFragment url frag.

(** [func (u *URL) EscapedPath() string] *)
Definition EscapedPath (u : URL) : string :=
  if negb (bool_decide (RawPath u = EmptyString))
     && validEncoded (RawPath u) encodePath
     && match unescape (RawPath u) encodePath with
        | Ok p => bool_decide (p = Path u)
        | Err _ => false
        end
  then RawPath u
  else if bool_decide (Path u = "*") then "*"
  else escape (Path u) encodePath.

(** [func (u *URL) EscapedFragment() string] *)
Definition EscapedFragment (u : URL) : string :=
  if negb (bool_decide (RawFragment u = EmptyString))
     && validEncoded (RawFragment u) encodeFragment
     && match unescape (RawFragment u) encodeFragment with
        | Ok f => bool_decide (f = Fragment u)
        | Err _ => false
        end
  then RawFragment u
  else escape (Fragment u) encodeFragment.

(** [func (u *Userinfo) String() string] *)
Definition Userinfo_String (u : Userinfo) : string :=
  escape (username u) encodeUserPassword +:+
  (if passwordSet u then ":" +:+ escape (password u) encodeUserPassword
   else EmptyString).

Definition nonempty (s : string) : bool := negb (bool_decide (s = EmptyString)).

(** The part of [URL.String] written before the query: scheme, authority
    and path, or scheme and opaque part. *)
Definition String_hier (u : URL) : string :=
  let buf := if nonempty (Scheme u) then Scheme u +:+ ":" else EmptyString in
  if nonempty (Opaque u) then buf +:+ Opaque u
  else
    let buf :=
      if nonempty (Scheme u) || nonempty (Host u) || bool_decide (is_Some (User u)) then
        if OmitHost u && negb (nonempty (Host u)) && negb (bool_decide (is_Some (User u)))
        then buf
        else
          let buf :=
            if nonempty (Host u) || nonempty (Path u) || bool_decide (is_Some (User u))
            then buf +:+ "//" else buf in
          let buf :=
            match User u with
            | Some ui => buf +:+ Userinfo_String ui +:+ "@"
            | None => buf
            end in
          if nonempty (Host u) then buf +:+ escape (Host u) encodeHost else buf
      else buf in
    let path := EscapedPath u in
    let buf :=
      if nonempty path && negb (Strings.HasPrefix path "/") && nonempty (Host u)
      then buf +:+ "/" else buf in
    let buf :=
      if Nat.eqb (String.length buf) 0
         && Strings.Contains (fst (fst (Strings.Cut path "/"))) ":"
      then buf +:+ "./" else buf in
    buf +:+ path.

(** The query part of [URL.String]. *)
Definition String_query (u : URL) : string :=
  if ForceQuery u || nonempty (RawQuery u) then "?" +:+ RawQuery u else EmptyString.

(** The fragment part of [URL.String]. *)
Definition String_fragment (u : URL) : string :=
  if nonempty (Fragment u) then "#" +:+ EscapedFragment u else EmptyString.

(** [func (u *URL) String() string] *)
Definition URL_String (u : URL) : string :=
  String_hier u +:+ String_query u +:+ String_fragment u.

(** [strings.Split(s, sep)] for a one-byte separator. *)
Fixpoint SplitByte (s : string) (sep : ascii) : list string :=
  match s with
  | EmptyString => [EmptyString]
  | String a s' =>
      if Char.eqb a sep then EmptyString :: SplitByte s' sep
      else match SplitByte s' sep with
           | seg :: segs => String a seg :: segs
           | [] => [String a EmptyString]
           end
  end.

(** [Values] is [map[string][]string]. *)
Abbreviation Values := (gmap string (list string)).

(** [v[key]]: the nil slice when the key is absent. *)
Definition at_key (v : Values) (key : string) : list string :=
  default [] (v !! key).

(** [func (v Values) Add(key, value string)] *)
Definition Add (v : Values) (key value : string) : Values :=
  <[key := at_key v key ++ [value]]> v.

(** One turn of the loop of [parseQuery], on the text between two [&]. *)
Definition parseQuery_pair (acc : Values * option error) (key : string)
  : Values * option error :=
  let '(m, err) := acc in
  let first (e : error) := match err with Some _ => err | None => Some e end in
  if Strings.Contains key ";" then
    (m, Some (External (mkForeignError "net/url" "invalid semicolon separator in query")))
  else if bool_decide (key = EmptyString) then (m, err)
  else
    let '(key, value, _) := Strings.Cut key "=" in
    match QueryUnescape key with
    | Err e => (m, first e)
    | Ok key =>
        match QueryUnescape value with
        | Err e => (m, first e)
        | Ok value => (Add m key value, err)
        end
    end.

(** [ParseQuery]: the loop cuts the query at each [&]; here the query is
    split at every [&] first and the pieces are handled in order. *)
Definition ParseQuery (query : string) : Values * option error :=
  if bool_decide (query = EmptyString) then (∅, None)
  else foldl parseQuery_pair (∅, None) (SplitByte query "&").

(** [func (u *URL) Query() Values]: the parse error is dropped. *)
Definition Query (u : URL) : Values := fst (ParseQuery (RawQuery u)).

(** The keys of the map, sorted: [for k := range v] appends the keys in an
    unspecified order and [slices.Sort] orders them byte-wise. *)
Definition sorted_keys (v : Values) : list string :=
  merge_sort String.le (fst <$> map_to_list v).

(** The body of the inner loop of [Encode]. *)
Definition Encode_value (keyEscaped : string) (buf value : string) : string :=
  (if Nat.ltb 0 (String.length buf) then buf +:+ "&" else buf)
  +:+ keyEscaped +:+ "=" +:+ QueryEscape value.

(** [func (v Values) Encode() string] *)
Definition Encode (v : Values) : string :=
  if Nat.eqb (size v) 0 then EmptyString
  else
    foldl (fun buf k => foldl (Encode_value (QueryEscape k)) buf (at_key v k))
          EmptyString (sorted_keys v).

End url.

(** ** Package [net/textproto] and [net/http] *)

Module http.

(** [validHeaderFieldByte]: the token bytes of RFC 7230. *)
Definition validHeaderFieldByte (c : ascii) : bool :=
  Char.is_alnum c || Char.one_of "!#$%&'*+-.^_`|~" c.

(** The second loop of [canonicalMIMEHeaderKey]: upper case for the first
    letter and for every letter after a dash, lower case for the others. *)
Fixpoint canonical_from (upper : bool) (s : string) : string :=
  match s with
  | EmptyString => EmptyString
  | String c s' =>
      let c' := if upper && Char.is_lower c then Char.to_upper c
                else if negb upper && Char.is_upper c then Char.to_lower c
                else c in
      String c' (canonical_from (Char.eqb c' "-") s')
  end.

(** [textproto.CanonicalMIMEHeaderKey]: a key with a byte that is not a
    token byte is returned unchanged. *)
Definition CanonicalMIMEHeaderKey (s : string) : string :=
  if Strings.all validHeaderFieldByte s then canonical_from true s else s.

(** [Header], that is [textproto.MIMEHeader], is [map[string][]string]. *)
Abbreviation MIMEHeader := (gmap string (list string)).

Definition at_key (h : MIMEHeader) (key : string) : list string :=
  default [] (h !! key).

(** [func (h Header) Add(key, value string)] *)
Definition Header_Add (h : MIMEHeader) (key value : string) : MIMEHeader :=
  let key := CanonicalMIMEHeaderKey key in
  <[key := at_key h key ++ [value]]> h.

(** [func (h Header) Set(key, value string)] *)
Definition Header_Set (h : MIMEHeader) (key value : string) : MIMEHeader :=
  <[CanonicalMIMEHeaderKey key := [value]]> h.

(** [func (h Header) Get(key string) string] *)
Definition Header_Get (h : MIMEHeader) (key : string) : string :=
  match at_key h (CanonicalMIMEHeaderKey key) with
  | [] => EmptyString
  | v :: _ => v
  end.

(** A [context.Context] value: the nil interface or a live context. *)
Inductive Context :=
| nilContext
| liveContext (id : nat).

(** An [io.ReadCloser] that behaves as the body of a network response does:
    the bytes that reading will still deliver, the error (if any) that
    reading meets after them in place of the end of the stream, and whether
    [Close] was called.  The error is whatever the [Read] of the body
    returns: the transport is injected, so it can be any error value, one
    of this package included. *)
Record ReadCloser := mkReadCloser {
  unread : string;
  failure : option error;
  closed : bool
}.

(** [io.ReadAll]: the bytes read and the error, and the stream afterwards. *)
Definition ReadAll (r : ReadCloser) : (string * option error) * ReadCloser :=
  if closed r then
    ((EmptyString,
      Some (External (mkForeignError "net/http" "read on closed response body"))), r)
  else ((unread r, failure r), mkReadCloser EmptyString (failure r) false).

Definition Close (r : ReadCloser) : ReadCloser :=
  mkReadCloser (unread r) (failure r) true.

(** [http.Request], as far as this package sets it. *)
Record Request := mkRequest {
  ctx : Context;
  Method : string;
  URL : url.URL;
  Header : MIMEHeader;
  Body : option string
}.

(** [http.Response], as far as this package reads it.  The response carries
    a body, as every response of the client of [net/http] does ("the
    Response will contain a non-nil Body"); a response whose [Body] is nil,
    which an injected transport could return and on which [do], [Raw] and
    [Into] would panic, has no value here. *)
Record Response := mkResponse {
  StatusCode : Z;
  Status : string;
  RespBody : ReadCloser
}.

(** [validMethod]: a non-empty token. *)
Definition validMethod (method : string) : bool :=
  Nat.ltb 0 (String.length method) && Strings.all validHeaderFieldByte method.

(** [removeEmptyPort] strips the empty port in [":"] of ["host:"]. *)
Definition removeEmptyPort (host : string) : string :=
  let hasPort :=
    match Strings.LastIndexByte host ":", Strings.LastIndexByte host "]" with
    | Some i, Some j => Nat.ltb j i
    | Some _, None => true
    | None, _ => false
    end in
  if hasPort then Strings.TrimSuffix host ":" else host.

(** [http.NewRequestWithContext(ctx, method, url, body)]; the new request
    has an empty header map. *)
Definition NewRequestWithContext (ctx : Context) (method url : string)
    (body : option string) : result Request :=
  let method := if bool_decide (method = EmptyString) then "GET" else method in
  if negb (validMethod method) then foreign "net/http" "invalid method"
  else match ctx with
       | nilContext => foreign "net/http" "nil Context"
       | liveContext _ =>
           u ← url.Parse url;
           let u := url.mkURL (url.Scheme u) (url.Opaque u) (url.User u)
                      (removeEmptyPort (url.Host u)) (url.Path u) (url.RawPath u)
                      (url.OmitHost u) (url.ForceQuery u) (url.RawQuery u)
                      (url.Fragment u) (url.RawFragment u) in
           Ok (mkRequest ctx method u ∅ body)
       end.

Definition MethodGet : string := "GET".
Definition MethodPost : string := "POST".
Definition StatusOK : Z := 200.
Definition StatusMultipleChoices : Z := 300.

End http.

(** ** Package [encoding/json]: the scanner and the decoding of a [bool]

    [state] names the step functions of [scanner.go], [parse] the values on
    [scanner.parseState] (the innermost first here), [op] the codes a step
    returns. *)

Module json.

Inductive parse := parseObjectKey | parseObjectValue | parseArrayValue.

Inductive state :=
| stateBeginValueOrEmpty | stateBeginValue | stateBeginStringOrEmpty
| stateBeginString | stateEndValue | stateEndTop
| stateInString | stateInStringEsc | stateInStringEscU | stateInStringEscU1
| stateInStringEscU12 | stateInStringEscU123
| stateNeg | state1 | state0 | stateDot | stateDot0 | stateE | stateESign | stateE0
| stateT | stateTr | stateTru | stateF | stateFa | stateFal | stateFals
| stateN | stateNu | stateNul
| stateError.

Inductive op :=
| scanContinue | scanBeginLiteral | scanBeginObject | scanObjectKey
| scanObjectValue | scanEndObject | scanBeginArray | scanArrayValue
| scanEndArray | scanSkipSpace | scanEnd | scanError.

Global Instance op_eq_dec : EqDecision op.
Proof. solve_decision. Defined.

Record scanner := mkScanner {
  step : state;
  parseState : list parse
}.

Definition maxNestingDepth : N := 10000.

(** [isSpace] *)
Definition isSpace (c : ascii) : bool :=
  Char.eqb c " " || Char.eqb c (ascii_of_N 9) || Char.eqb c (ascii_of_N 13)
  || Char.eqb c (ascii_of_N 10).

Definition isHex (c : ascii) : bool :=
  Char.is_digit c || Char.between "a" "f" c || Char.between "A" "F" c.

(** [s.error(c, context)]: the scanner stays in [stateError]. *)
Definition scanner_error (s : scanner) : scanner * op :=
  (mkScanner stateError (parseState s), scanError).

(** [s.pushParseState(c, newParseState, successState)], after [s.step] was
    set to [next]. *)
Definition pushParseState (s : scanner) (next : state) (p : parse) (success : op)
  : scanner * op :=
  let stack := p :: parseState s in
  if (N.of_nat (length stack) <=? maxNestingDepth)%N
  then (mkScanner next stack, success)
  else (mkScanner stateError stack, scanError).

(** [s.popParseState()] *)
Definition popParseState (rest : list parse) : scanner :=
  match rest with
  | [] => mkScanner stateEndTop []
  | _ :: _ => mkScanner stateEndValue rest
  end.

(** [stateEndTop]: the error of a byte that is not space is recorded, and
    [scanEnd] is returned all the same. *)
Definition on_stateEndTop (s : scanner) (c : ascii) : scanner * op :=
  if isSpace c then (mkScanner stateEndTop (parseState s), scanEnd)
  else (mkScanner stateError (parseState s), scanEnd).

(** [stateEndValue] *)
Definition on_stateEndValue (s : scanner) (c : ascii) : scanner * op :=
  match parseState s with
  | [] => on_stateEndTop s c
  | ps :: rest =>
      if isSpace c then (mkScanner stateEndValue (parseState s), scanSkipSpace)
      else match ps with
           | parseObjectKey =>
               if Char.eqb c ":" then
                 (mkScanner stateBeginValue (parseObjectValue :: rest), scanObjectKey)
               else scanner_error s
           | parseObjectValue =>
               if Char.eqb c "," then
                 (mkScanner stateBeginString (parseObjectKey :: rest), scanObjectValue)
               else if Char.eqb c "}" then (popParseState rest, scanEndObject)
               else scanner_error s
           | parseArrayValue =>
               if Char.eqb c "," then
                 (mkScanner stateBeginValue (parseState s), scanArrayValue)
               else if Char.eqb c "]" then (popParseState rest, scanEndArray)
               else scanner_error s
           end
  end.

(** [stateBeginValue] *)
Definition on_stateBeginValue (s : scanner) (c : ascii) : scanner * op :=
  if isSpace c then (s, scanSkipSpace)
  else if Char.eqb c "{" then
    pushParseState s stateBeginStringOrEmpty parseObjectKey scanBeginObject
  else if Char.eqb c "[" then
    pushParseState s stateBeginValueOrEmpty parseArrayValue scanBeginArray
  else if Char.eqb c Char.dquote then
    (mkScanner stateInString (parseState s), scanBeginLiteral)
  else if Char.eqb c "-" then (mkScanner stateNeg (parseState s), scanBeginLiteral)
  else if Char.eqb c "0" then (mkScanner state0 (parseState s), scanBeginLiteral)
  else if Char.eqb c "t" then (mkScanner stateT (parseState s), scanBeginLiteral)
  else if Char.eqb c "f" then (mkScanner stateF (parseState s), scanBeginLiteral)
  else if Char.eqb c "n" then (mkScanner stateN (parseState s), scanBeginLiteral)
  else if Char.between "1" "9" c then
    (mkScanner state1 (parseState s), scanBeginLiteral)
  else scanner_error s.

(** [stateBeginString] *)
Definition on_stateBeginString (s : scanner) (c : ascii) : scanner * op :=
  if isSpace c then (s, scanSkipSpace)
  else if Char.eqb c Char.dquote then
    (mkScanner stateInString (parseState s), scanBeginLiteral)
  else scanner_error s.

(** A step that moves to [next] on a byte that [accept] takes and is an
    error on any other byte. *)
Definition expect (s : scanner) (accept : bool) (next : state) : scanner * op :=
  if accept then (mkScanner next (parseState s), scanContinue) else scanner_error s.

(** [s.step(s, c)] *)
Definition scan (s : scanner) (c : ascii) : scanner * op :=
  let digit := Char.is_digit c in
  let exponent := Char.eqb c "e" || Char.eqb c "E" in
  let stay := (s, scanContinue) in
  match step s with
  | stateBeginValueOrEmpty =>
      if isSpace c then (s, scanSkipSpace)
      else if Char.eqb c "]" then on_stateEndValue s c
      else on_stateBeginValue s c
  | stateBeginValue => on_stateBeginValue s c
  | stateBeginStringOrEmpty =>
      if isSpace c then (s, scanSkipSpace)
      else if Char.eqb c "}" then
        on_stateEndValue (mkScanner (step s) (parseObjectValue :: tail (parseState s))) c
      else on_stateBeginString s c
  | stateBeginString => on_stateBeginString s c
  | stateEndValue => on_stateEndValue s c
  | stateEndTop => on_stateEndTop s c
  | stateInString =>
      if Char.eqb c Char.dquote then
        (mkScanner stateEndValue (parseState s), scanContinue)
      else if Char.eqb c "\" then
        (mkScanner stateInStringEsc (parseState s), scanContinue)
      else if (Char.code c <? 32)%N then scanner_error s
      else stay
  | stateInStringEsc =>
      if Char.one_of "bfnrt\/" c || Char.eqb c Char.dquote then
        (mkScanner stateInString (parseState s), scanContinue)
      else expect s (Char.eqb c "u") stateInStringEscU
  | stateInStringEscU => expect s (isHex c) stateInStringEscU1
  | stateInStringEscU1 => expect s (isHex c) stateInStringEscU12
  | stateInStringEscU12 => expect s (isHex c) stateInStringEscU123
  | stateInStringEscU123 => expect s (isHex c) stateInString
  | stateNeg =>
      if Char.eqb c "0" then (mkScanner state0 (parseState s), scanContinue)
      else expect s (Char.between "1" "9" c) state1
  | state1 =>
      if digit then (mkScanner state1 (parseState s), scanContinue)
      else if Char.eqb c "." then (mkScanner stateDot (parseState s), scanContinue)
      else if exponent then (mkScanner stateE (parseState s), scanContinue)
      else on_stateEndValue s c
  | state0 =>
      if Char.eqb c "." then (mkScanner stateDot (parseState s), scanContinue)
      else if exponent then (mkScanner stateE (parseState s), scanContinue)
      else on_stateEndValue s c
  | stateDot => expect s digit stateDot0
  | stateDot0 =>
      if digit then stay
      else if exponent then (mkScanner stateE (parseState s), scanContinue)
      else on_stateEndValue s c
  | stateE =>
      if Char.eqb c "+" || Char.eqb c "-" then
        (mkScanner stateESign (parseState s), scanContinue)
      else expect s digit stateE0
  | stateESign => expect s digit stateE0
  | stateE0 => if digit then stay else on_stateEndValue s c
  | stateT => expect s (Char.eqb c "r") stateTr
  | stateTr => expect s (Char.eqb c "u") stateTru
  | stateTru => expect s (Char.eqb c "e") stateEndValue
  | stateF => expect s (Char.eqb c "a") stateFa
  | stateFa => expect s (Char.eqb c "l") stateFal
  | stateFal => expect s (Char.eqb c "s") stateFals
  | stateFals => expect s (Char.eqb c "e") stateEndValue
  | stateN => expect s (Char.eqb c "u") stateNu
  | stateNu => expect s (Char.eqb c "l") stateNul
  | stateNul => expect s (Char.eqb c "l") stateEndValue
  | stateError => (s, scanError)
  end.

(** [s.reset()] *)
Definition reset : scanner := mkScanner stateBeginValue [].

(** What [Decoder.readValue] finds in the bytes of the stream. *)
Inductive found :=
| complete (n : nat)
| syntaxError
| endOfInput (s : scanner).

(** The loop of [readValue] over the bytes read, [n] bytes being scanned
    already: a value ends where the scanner says [scanEnd], one byte late,
    or at the bracket that closes an array or an object at the top. *)
Fixpoint readValue_from (s : scanner) (n : nat) (buf : string) : found :=
  match buf with
  | EmptyString => endOfInput s
  | String c buf' =>
      let '(s', o) := scan s c in
      match o with
      | scanEnd => complete n
      | scanError => syntaxError
      | scanEndObject | scanEndArray =>
          if bool_decide ((on_stateEndValue s' " ").2 = scanEnd) then complete (S n)
          else readValue_from s' (S n) buf'
      | _ => readValue_from s' (S n) buf'
      end
  end.

(** [nonSpace] *)
Definition nonSpace (b : string) : bool := negb (Strings.all isSpace b).

Definition SyntaxError : error :=
  External (mkForeignError "encoding/json" "syntax error").
Definition UnmarshalTypeError (value type : string) : error :=
  External (mkForeignError "encoding/json"
              ("cannot unmarshal " +:+ value +:+ " into Go value of type " +:+ type)).
Definition EOF : error := External (mkForeignError "io" "EOF").
Definition ErrUnexpectedEOF : error :=
  External (mkForeignError "io" "unexpected EOF").

(** [Decoder.readValue] on a stream that delivers [data] and then ends, or
    fails with [failure]: the bytes of the first value, or the error. *)
Definition readValue (data : string) (failure : option error) : result string :=
  match readValue_from reset 0 data with
  | complete n => Ok (Strings.take n data)
  | syntaxError => Err SyntaxError
  | endOfInput s =>
      match failure with
      | Some e => Err e
      | None =>
          if bool_decide ((scan s " ").2 = scanEnd) then Ok data
          else if nonSpace data then Err ErrUnexpectedEOF
          else Err EOF
      end
  end.

(** The first byte of a value that is not space. *)
Fixpoint firstByte (item : string) : option ascii :=
  match item with
  | EmptyString => None
  | String c item' => if isSpace c then firstByte item' else Some c
  end.

(** [decodeState.unmarshal] of a scanned value into a [bool]: [true] and
    [false] are stored, [null] changes nothing, and an array, an object, a
    string or a number is a type error that leaves the variable as it was. *)
Definition unmarshal_bool (item : string) (res : bool) : bool * option error :=
  match firstByte item with
  | Some c =>
      if Char.eqb c "t" then (true, None)
      else if Char.eqb c "f" then (false, None)
      else if Char.eqb c "n" then (res, None)
      else if Char.eqb c "[" then (res, Some (UnmarshalTypeError "array" "bool"))
      else if Char.eqb c "{" then (res, Some (UnmarshalTypeError "object" "bool"))
      else if Char.eqb c Char.dquote then
        (res, Some (UnmarshalTypeError "string" "bool"))
      else (res, Some (UnmarshalTypeError "number" "bool"))
  | None => (res, Some SyntaxError)
  end.

(** [json.NewDecoder(stream).Decode(&res)] with [res] a [bool].  The
    decoder reads ahead of the value it returns; the stream is left here
    with nothing more to deliver, and what a longer stream would keep is
    discarded by the [Close] of [Into] in any case. *)
Definition Decode_bool (r : http.ReadCloser) (res : bool)
  : (bool * option error) * http.ReadCloser :=
  let '((data, failure), r') := http.ReadAll r in
  match readValue data failure with
  | Err e => ((res, Some e), r')
  | Ok item => (unmarshal_bool item res, r')
  end.

End json.

(** ** [client.go] and [response.go] *)

(** [json.Marshal] on the values given to [Body]: an interface over the
    dynamic type of the value. *)
Class Marshaler (any : Type) := json_Marshal : any -> result string.

(** [json.NewDecoder(stream).Decode(&res)] at a target type [T] with zero
    value [zero]: the value left in [res], the error (of [encoding/json], or
    the error of the stream), and the stream as the decoder leaves it. *)
Class Decoder (T : Type) := mkDecoder {
  zero : T;
  json_Decode : http.ReadCloser -> T -> (T * option error) * http.ReadCloser
}.

(** What a call does: it returns, or it panics (here: on the nil
    [*http.Response] of a wrapper that holds neither a response nor an error,
    which [do] never builds). *)
Inductive run (A : Type) :=
| Returns (a : A)
| Panics.
Arguments Returns {A} a.
Arguments Panics {A}.

Section fluent.

(** The outside world the transport talks to, and the type of body values. *)
Context {World any : Type} `{!Marshaler any}.

(** [httpClient]: anything with a method [Do] from a request to a response
    and an error.  The transport answers with a response or with an error,
    as the client of [net/http] does; one that returns neither, on which
    [do] would panic, has no value here. *)
Definition httpClient : Type :=
  http.Request -> World -> result http.Response * World.

(** [Client]; [body] is [None] for the nil interface.  A client is built by
    [New]: its maps and its transport are never nil. *)
Record Client := mkClient {
  baseURL : string;
  params : url.Values;
  headers : http.MIMEHeader;
  client : httpClient;
  body : option any
}.

(** [Response] wraps an [*http.Response] and the error of the request. *)
Record Response := mkResp {
  resp : option http.Response;
  err : option error
}.

(** [http.DefaultClient] is a parameter of [New]. *)
Definition New (DefaultClient : httpClient) : Client :=
  mkClient EmptyString ∅ ∅ DefaultClient None.

Definition BaseURL (c : Client) (baseURL : string) : Client :=
  mkClient baseURL (params c) (headers c) (client c) (body c).

Definition Query (c : Client) (key value : string) : Client :=
  mkClient (baseURL c) (url.Add (params c) key value) (headers c) (client c) (body c).

Definition Header (c : Client) (key value : string) : Client :=
  mkClient (baseURL c) (params c) (http.Header_Add (headers c) key value)
           (client c) (body c).

Definition HTTPClient (c : Client) (client : httpClient) : Client :=
  mkClient (baseURL c) (params c) (headers c) client (body c).

(** [Body(body any)]: [None] is [Body(nil)]. *)
Definition Body (c : Client) (body : option any) : Client :=
  mkClient (baseURL c) (params c) (headers c) (client c) body.

Definition Reset (c : Client) : Client :=
  mkClient (baseURL c) ∅ ∅ (client c) None.

(** [for k, vals := range m { for _, v := range vals { acc = add(acc, k, v) } }]
    with the entries of the map met in the order of [l]. *)
Definition range_add_in (add : gmap string (list string) -> string -> string ->
                               gmap string (list string))
    (l : list (string * list string)) (acc : gmap string (list string))
  : gmap string (list string) :=
  foldl (fun acc kv => foldl (fun acc v => add acc kv.1 v) acc kv.2) acc l.

(** The same loop over a map.  Go leaves the order of a [range] over a map
    open; the order taken here is that of [map_to_list], and the properties
    below show that what [fullURL] and [do] build does not depend on it. *)
Definition range_add (add : gmap string (list string) -> string -> string ->
                            gmap string (list string))
    (m acc : gmap string (list string)) : gmap string (list string) :=
  range_add_in add (map_to_list m) acc.

(** [fullURL] builds the final URL from [baseURL], [path] and the query
    parameters. *)
Definition fullURL (c : Client) (path : string) : result string :=
  if bool_decide (baseURL c = EmptyString) then
    match url.Parse path with
    | Err err => Err (Errorf "invalid URL: " err)
    | Ok u =>
        let q := url.Query u in
        let q := range_add url.Add (params c) q in
        let u := url.set_RawQuery u (url.Encode q) in
        Ok (url.URL_String u)
    end
  else
    match url.Parse (baseURL c) with
    | Err err => Err (Errorf "invalid baseURL: " err)
    | Ok u =>
        let u := url.set_Path u
                   (Strings.TrimSuffix (url.Path u) "/" +:+ "/" +:+
                    Strings.TrimPrefix path "/") in
        let u := url.set_RawQuery u (url.Encode (params c)) in
        Ok (url.URL_String u)
    end.

(** The part of [do] between the resolution of the URL and the call of the
    transport (lines 134 to 158): the request handed to [c.client.Do], or the
    error that ends [do] before. *)
Definition request (c : Client) (ctx : http.Context) (method full : string)
  : result http.Request :=
  payload ← match body c with
            | Some v => b ← json_Marshal v; Ok (Some b)
            | None => Ok None
            end;
  req ← http.NewRequestWithContext ctx method full payload;
  let req :=
    if bool_decide (is_Some (body c))
       && bool_decide (http.Header_Get (http.Header req) "Content-Type" = EmptyString)
    then http.mkRequest (http.ctx req) (http.Method req) (http.URL req)
           (http.Header_Set (http.Header req) "Content-Type" "application/json")
           (http.Body req)
    else req in
  Ok (http.mkRequest (http.ctx req) (http.Method req) (http.URL req)
        (range_add http.Header_Add (headers c) (http.Header req))
        (http.Body req)).

(** [do] runs a request with any method; it returns the wrapper, the
    client as the call leaves it, and the world after the transport ran.
    (The deferred [Close] of a response that is not 2xx acts on a stream that
    [do] does not hand out and is left out.) *)
Definition do (c : Client) (ctx : http.Context) (method path : string) (w : World)
  : Response * Client * World :=
  match fullURL c path with
  | Err err => (mkResp None (Some err), c, w)
  | Ok fullURL =>
      match request c ctx method fullURL with
      | Err err => (mkResp None (Some err), c, w)
      | Ok req =>
          match client c req w with
          | (Err err, w) => (mkResp None (Some err), c, w)
          | (Ok resp, w) =>
              if (http.StatusCode resp <? http.StatusOK)
                 || (http.StatusCode resp >=? http.StatusMultipleChoices) then
                match fst (http.ReadAll (http.RespBody resp)) with
                | (_, Some err) => (mkResp None (Some err), c, w)
                | (body, None) =>
                    (mkResp None
                       (Some (HTTPErr (HTTPError.mk (http.StatusCode resp)
                                         (http.Status resp) method fullURL body))),
                     c, w)
                end
              else
                (mkResp (Some resp) None,
                 mkClient (baseURL c) (params c) (headers c) (client c) None, w)
          end
      end
  end.

Definition Get (c : Client) (ctx : http.Context) (path : string) (w : World) :=
  do c ctx http.MethodGet path w.

Definition Post (c : Client) (ctx : http.Context) (path : string) (w : World) :=
  do c ctx http.MethodPost path w.

(** [Raw] reads the whole body; [None] is the nil slice.  The wrapper is
    returned with its stream as the call leaves it. *)
Definition Raw (r : Response) : run ((option string * option error) * Response) :=
  match err r, resp r with
  | Some e, _ => Returns ((None, Some e), r)
  | None, Some h =>
      let '((data, e), stream) := http.ReadAll (http.RespBody h) in
      Returns ((Some data, e),
               mkResp (Some (http.mkResponse (http.StatusCode h) (http.Status h)
                               (http.Close stream))) None)
  | None, None => Panics
  end.

(** [Body] hands out the stream; [None] is the nil stream. *)
Definition Response_Body (r : Response)
  : run (option http.ReadCloser * option error) :=
  match err r, resp r with
  | Some e, _ => Returns (None, Some e)
  | None, Some h => Returns (Some (http.RespBody h), None)
  | None, None => Panics
  end.

Definition Error (r : Response) : option error := err r.

(** [Into] decodes the body of the response into a value of type [T]. *)
Definition Into {T : Type} `{!Decoder T} (r : Response)
  : run ((T * option error) * Response) :=
  match err r, resp r with
  | Some e, _ => Returns ((zero, Some e), r)
  | None, Some h =>
      let '((res, e), stream) := json_Decode (http.RespBody h) zero in
      Returns ((res, e),
               mkResp (Some (http.mkResponse (http.StatusCode h) (http.Status h)
                               (http.Close stream))) None)
  | None, None => Panics
  end.

End fluent.

(** ** Vocabulary of the statements *)

(** One [key=value] pair as [Encode] writes it. *)
Definition render (kv : string * string) : string :=
  url.QueryEscape kv.1 +:+ "=" +:+ url.QueryEscape kv.2.

(** The pairs of a [Values] in the order in which [Encode] writes them. *)
Definition pairs (v : url.Values) : list (string * string) :=
  k ← url.sorted_keys v; pair k <$> url.at_key v k.

(** The values that a list of pairs holds for a key, in order. *)
Definition values_of (k : string) (kvs : list (string * string)) : list string :=
  (filter (λ kv, kv.1 = k) kvs).*2.

(** [sub] occurs in [s]. *)
Definition occurs_in (sub s : string) : Prop :=
  ∃ pre post, s = pre +:+ sub +:+ post.

(** The status codes [do] takes for a success. *)
Definition is_2xx (code : Z) : Prop := 200 ≤ code < 300.

(** The way [Encode] grows its buffer: an item is written after a [&]
    unless the buffer is still empty. *)
Definition join_onto (buf : string) (items : list string) : string :=
  foldl (λ buf item,
           (if Nat.ltb 0 (String.length buf) then buf +:+ "&" else buf) +:+ item)
        buf items.

(** The path [fullURL] gives the URL of a client with a base URL (line 218). *)
Definition joined_path (basePath path : string) : string :=
  Strings.TrimSuffix basePath "/" +:+ "/" +:+ Strings.TrimPrefix path "/".

(** The URL [fullURL] renders for a client whose base URL parsed to [u]. *)
Definition resolved_on_base (u : url.URL) (path : string) (params : url.Values)
  : url.URL :=
  url.set_RawQuery (url.set_Path u (joined_path (url.Path u) path))
                   (url.Encode params).

(** The [HTTPError] that [do] builds from a response read to its end. *)
Definition status_error (h : http.Response) (method full data : string) : error :=
  HTTPErr (HTTPError.mk (http.StatusCode h) (http.Status h) method full data).

(** [c] with its body cleared, as [do] leaves it after a success. *)
Definition cleared {World any : Type} (c : @Client World any) : @Client World any :=
  mkClient (baseURL c) (params c) (headers c) (client c) None.

Section outcome.
Context {World any : Type} `{!Marshaler any}.
Implicit Types c : @Client World any.

(** The ways [do] can end, in the order of the source. *)
Inductive outcome c (ctx : http.Context) (method path : string) (w : World)
  : Response → @Client World any → World → Prop :=
| resolve_failed e :
    fullURL c path = Err e →
    outcome c ctx method path w (mkResp None (Some e)) c w
| request_failed full e :
    fullURL c path = Ok full →
    request c ctx method full = Err e →
    outcome c ctx method path w (mkResp None (Some e)) c w
| transport_failed full req e w1 :
    fullURL c path = Ok full →
    request c ctx method full = Ok req →
    client c req w = (Err e, w1) →
    outcome c ctx method path w (mkResp None (Some e)) c w1
| read_failed full req h w1 data e :
    fullURL c path = Ok full →
    request c ctx method full = Ok req →
    client c req w = (Ok h, w1) →
    ¬ is_2xx (http.StatusCode h) →
    (http.ReadAll (http.RespBody h)).1 = (data, Some e) →
    outcome c ctx method path w (mkResp None (Some e)) c w1
| status_failed full req h w1 data :
    fullURL c path = Ok full →
    request c ctx method full = Ok req →
    client c req w = (Ok h, w1) →
    ¬ is_2xx (http.StatusCode h) →
    (http.ReadAll (http.RespBody h)).1 = (data, None) →
    outcome c ctx method path w
      (mkResp None (Some (status_error h method full data))) c w1
| succeeded full req h w1 :
    fullURL c path = Ok full →
    request c ctx method full = Ok req →
    client c req w = (Ok h, w1) →
    is_2xx (http.StatusCode h) →
    outcome c ctx method path w (mkResp (Some h) None) (cleared c) w1.

End outcome.

(** ** Concrete clients, transports and body values for the scenarios *)

Module Scenario.

(** Body values: a [bool], which marshals to [true] or [false], and a
    channel, which [json.Marshal] refuses. *)
Inductive Payload :=
| Flag (b : bool)
| Channel.

Global Instance Payload_Marshaler : Marshaler Payload := λ v,
  match v with
  | Flag b => Ok (if b then "true" else "false")
  | Channel => foreign "encoding/json" "unsupported type: chan int"
  end.

(** The world of these transports is the list of the requests sent so far,
    the latest first. *)
Abbreviation World := (list http.Request).

(** A transport that records the request and answers with a fixed reply. *)
Definition replying (reply : result http.Response) : @httpClient World :=
  λ req w, (reply, req :: w).

Definition stream (data : string) : http.ReadCloser :=
  http.mkReadCloser data None false.

(** A stream that delivers [data] and then breaks. *)
Definition broken_stream (data : string) : http.ReadCloser :=
  http.mkReadCloser data (Some (External (mkForeignError "io" "unexpected EOF")))
                    false.

Definition reply_200 : result http.Response :=
  Ok (http.mkResponse 200 "200 OK" (stream "[]")).

Definition reply_404 : result http.Response :=
  Ok (http.mkResponse 404 "404 Not Found" (stream "{}")).

Definition reply_500_broken : result http.Response :=
  Ok (http.mkResponse 500 "500 Internal Server Error" (broken_stream "<html>")).

Definition reply_refused : result http.Response :=
  foreign "net" "connection refused".

(** A transport that refuses the first connection and answers 200 from
    then on. *)
Definition flaky : @httpClient World :=
  λ req w,
    match w with
    | [] => (reply_refused, [req])
    | _ :: _ => (reply_200, req :: w)
    end.

Definition ctx : http.Context := http.liveContext 0.

(** A stream that delivers [data] and then fails with [e]. *)
Definition failing_stream (data : string) (e : error) : http.ReadCloser :=
  http.mkReadCloser data (Some e) false.

(** An answer with status 500 whose body fails, at its first read, with the
    sentinel of this package (the transport is built on this package, say,
    and hands on the error of its own upstream call). *)
Definition reply_500_not_ok : result http.Response :=
  Ok (http.mkResponse 500 "500 Internal Server Error"
        (failing_stream EmptyString ErrNotOK)).

Definition reply_true : result http.Response :=
  Ok (http.mkResponse 200 "200 OK" (stream "true")).

(** [Into[bool]] *)
Global Instance bool_Decoder : Decoder bool :=
  mkDecoder bool false json.Decode_bool.

(** [fluent.New().BaseURL("https://api.example.com")] over a transport *)
Definition api (t : @httpClient World) : @Client World Payload :=
  BaseURL (New t) "https://api.example.com".

(** What [url.Parse] makes of ["https://api.example.com"] *)
Definition api_url : url.URL :=
  url.mkURL "https" EmptyString None "api.example.com" EmptyString EmptyString
            false false EmptyString EmptyString EmptyString.

(** What [url.Parse] makes of ["https://x.test/a?x=1"] *)
Definition x_test_url : url.URL :=
  url.mkURL "https" EmptyString None "x.test" "/a" EmptyString
            false false "x=1" EmptyString EmptyString.

(** [fluent.New()] over a transport, without a base URL *)
Definition bare (t : @httpClient World) : @Client World Payload := New t.

End Scenario.

(** The keys of the headers are in canonical form. *)
Definition canonical_keys (h : http.MIMEHeader) : Prop :=
  ∀ k, is_Some (h !! k) → http.CanonicalMIMEHeaderKey k = k.

(** No byte of [s] is one of [bad]. *)
Definition free_of (bad s : string) : bool :=
  Strings.all (λ c, negb (Char.one_of bad c)) s.

(** The bytes of a URL scheme, as [getScheme] accepts them. *)
Definition scheme_byte (c : ascii) : bool :=
  Char.is_lower c || Char.is_upper c || Char.is_digit c || Char.one_of "+-." c.

(** The clients a program can hold: built by [New] and the chainable
    methods, or left by a call of [do]. *)
Inductive built {World any : Type} `{!Marshaler any}
  : @Client World any → Prop :=
| built_New t : built (New t)
| built_BaseURL c b : built c → built (BaseURL c b)
| built_Query c k v : built c → built (Query c k v)
| built_Header c k v : built c → built (Header c k v)
| built_HTTPClient c t : built c → built (HTTPClient c t)
| built_Body c b : built c → built (Body c b)
| built_Reset c : built c → built (Reset c)
| built_do c ctx method path w : built c → built (do c ctx method path w).1.2.

(** No key of the map holds an empty list of values. *)
Definition nonempty_values (m : gmap string (list string)) : Prop :=
  ∀ k vals, m !! k = Some vals → vals ≠ [].

(** The error of [r], if it has one, was created outside this package and
    is not wrapped. *)
Definition fails_outside {A : Type} (r : result A) : Prop :=
  match r with
  | Ok _ => True
  | Err e => ∃ f, e = External f
  end.

(** A transport that keeps a log of the requests it is given, the latest
    first, whatever it answers. *)
Definition recording
    (reply : http.Request → list http.Request → result http.Response)
  : @httpClient (list http.Request) :=
  λ req w, (reply req w, req :: w).

(** The error of a read from a closed response body. *)
Definition read_on_closed : error :=
  External (mkForeignError "net/http" "read on closed response body").

(** [fullURL] with the loop over [c.params] (lines 202 to 206) meeting the
    entries of the map in the order of [order]. *)
Definition fullURL_in {World any : Type} (order : list (string * list string))
    (c : @Client World any) (path : string) : result string :=
  if bool_decide (baseURL c = EmptyString) then
    match url.Parse path with
    | Err err => Err (Errorf "invalid URL: " err)
    | Ok u =>
        let q := url.Query u in
        let q := range_add_in url.Add order q in
        let u := url.set_RawQuery u (url.Encode q) in
        Ok (url.URL_String u)
    end
  else
    match url.Parse (baseURL c) with
    | Err err => Err (Errorf "invalid baseURL: " err)
    | Ok u =>
        let u := url.set_Path u
                   (Strings.TrimSuffix (url.Path u) "/" +:+ "/" +:+
                    Strings.TrimPrefix path "/") in
        let u := url.set_RawQuery u (url.Encode (params c)) in
        Ok (url.URL_String u)
    end.

(** Lines 134 to 158 of [do] with the loop over [c.headers] (lines 154 to
    158) meeting the entries of the map in the order of [order]. *)
Definition request_in {World any : Type} `{!Marshaler any}
    (order : list (string * list string))
    (c : @Client World any) (ctx : http.Context) (method full : string)
  : result http.Request :=
  payload ← match body c with
            | Some v => b ← json_Marshal v; Ok (Some b)
            | None => Ok None
            end;
  req ← http.NewRequestWithContext ctx method full payload;
  let req :=
    if bool_decide (is_Some (body c))
       && bool_decide (http.Header_Get (http.Header req) "Content-Type" = EmptyString)
    then http.mkRequest (http.ctx req) (http.Method req) (http.URL req)
           (http.Header_Set (http.Header req) "Content-Type" "application/json")
           (http.Body req)
    else req in
  Ok (http.mkRequest (http.ctx req) (http.Method req) (http.URL req)
        (range_add_in http.Header_Add order (http.Header req))
        (http.Body req)).

(** * Properties *)

(** ** Strings *)

Lemma str_app_cons a s t : String a s +:+ t = String a (s +:+ t).
Proof. reflexivity. Qed.

Lemma str_app_nil_l s : EmptyString +:+ s = s.
Proof. reflexivity. Qed.

Lemma str_app_nil_r s : s +:+ EmptyString = s.
Proof. induction s as [|a s IH]; [reflexivity|]. rewrite str_app_cons. by f_equal. Qed.

Lemma str_app_assoc s t r : (s +:+ t) +:+ r = s +:+ (t +:+ r).
Proof. induction s as [|a s IH]; [reflexivity|]. rewrite !str_app_cons. by f_equal. Qed.

Lemma str_length_app s t :
  String.length (s +:+ t) = (String.length s + String.length t)%nat.
Proof. induction s as [|a s IH]; [reflexivity|]. rewrite str_app_cons. simpl. by f_equal. Qed.

Lemma str_length_zero s : String.length s = 0%nat ↔ s = EmptyString.
Proof. destruct s; simpl; split; intros; congruence. Qed.

Lemma occurs_in_refl s : occurs_in s s.
Proof. exists EmptyString, EmptyString. by rewrite str_app_nil_r. Qed.

Lemma occurs_in_app_l sub s t : occurs_in sub s → occurs_in sub (t +:+ s).
Proof.
  intros (pre & post & ->). exists (t +:+ pre), post. by rewrite str_app_assoc.
Qed.

Lemma occurs_in_app_r sub s t : occurs_in sub s → occurs_in sub (s +:+ t).
Proof.
  intros (pre & post & ->). exists pre, (post +:+ t). by rewrite !str_app_assoc.
Qed.

(** ** [Join] *)

Lemma Join_cons e rest sep :
  rest ≠ [] → Strings.Join (e :: rest) sep = e +:+ sep +:+ Strings.Join rest sep.
Proof. by destruct rest. Qed.

Lemma Join_app l1 l2 sep :
  l1 ≠ [] → l2 ≠ [] →
  Strings.Join (l1 ++ l2) sep = Strings.Join l1 sep +:+ sep +:+ Strings.Join l2 sep.
Proof.
  intros H1 H2. induction l1 as [|e l1 IH]; [done|].
  destruct l1 as [|e' l1].
  - simpl app. by rewrite Join_cons.
  - rewrite <-app_comm_cons, !Join_cons by done.
    rewrite IH by done. by rewrite !str_app_assoc.
Qed.

Lemma occurs_in_Join_middle l1 l2 l3 sep :
  occurs_in (Strings.Join l2 sep) (Strings.Join (l1 ++ l2 ++ l3) sep).
Proof.
  destruct l2 as [|e2 l2].
  { exists EmptyString, (Strings.Join (l1 ++ l3) sep). reflexivity. }
  assert (Hmid : occurs_in (Strings.Join (e2 :: l2) sep)
                   (Strings.Join ((e2 :: l2) ++ l3) sep)).
  { destruct l3 as [|e3 l3].
    - rewrite (right_id_L [] (++)). apply occurs_in_refl.
    - rewrite Join_app by done. apply occurs_in_app_r, occurs_in_refl. }
  destruct l1 as [|e1 l1]; [done|].
  rewrite Join_app by done. by apply occurs_in_app_l, occurs_in_app_l.
Qed.

(** ** [Encode] writes the pairs of the map, joined by [&] *)

Lemma foldl_Encode_value ke buf vals :
  foldl (url.Encode_value ke) buf vals =
  join_onto buf ((λ val, ke +:+ "=" +:+ url.QueryEscape val) <$> vals).
Proof.
  revert buf. induction vals as [|val vals IH]; intros buf; [done|].
  simpl. rewrite IH. reflexivity.
Qed.

Lemma join_onto_app buf l1 l2 :
  join_onto buf (l1 ++ l2) = join_onto (join_onto buf l1) l2.
Proof. unfold join_onto. apply foldl_app. Qed.

Lemma foldl_Encode_keys (v : url.Values) buf keys :
  foldl (λ buf k, foldl (url.Encode_value (url.QueryEscape k)) buf (url.at_key v k))
        buf keys =
  join_onto buf (render <$> (k ← keys; pair k <$> url.at_key v k)).
Proof.
  revert buf. induction keys as [|k keys IH]; intros buf; [done|].
  simpl. rewrite IH, foldl_Encode_value, fmap_app, join_onto_app.
  do 2 f_equal. rewrite <-list_fmap_compose. reflexivity.
Qed.

Lemma join_onto_Join buf items :
  Forall (λ item, item ≠ EmptyString) items →
  join_onto buf items =
  if decide (buf = EmptyString) then Strings.Join items "&"
  else if decide (items = []) then buf
  else buf +:+ "&" +:+ Strings.Join items "&".
Proof.
  intros Hne. revert buf.
  induction Hne as [|item items Hitem Hne IH]; intros buf.
  { simpl. repeat case_decide; done. }
  change (join_onto buf (item :: items)) with
    (join_onto ((if Nat.ltb 0 (String.length buf) then buf +:+ "&" else buf) +:+ item)
       items).
  rewrite IH. clear IH.
  assert (Hbuf : ∀ b, b +:+ item ≠ EmptyString).
  { intros b Hb. apply str_length_zero in Hb. rewrite str_length_app in Hb.
    apply Hitem, str_length_zero. lia. }
  rewrite decide_False by apply Hbuf.
  destruct (decide (buf = EmptyString)) as [->|Hnz].
  - change (Nat.ltb 0 (String.length EmptyString)) with false. cbv iota.
    rewrite str_app_nil_l.
    destruct (decide (items = [])) as [->|Hitems]; [done|].
    by rewrite Join_cons.
  - assert (Hlt : Nat.ltb 0 (String.length buf) = true).
    { apply Nat.ltb_lt. destruct buf; [done|simpl; lia]. }
    rewrite Hlt. rewrite (decide_False (P := item :: items = [])) by done.
    destruct (decide (items = [])) as [->|Hitems].
    + by rewrite str_app_assoc.
    + rewrite Join_cons by done. by rewrite !str_app_assoc.
Qed.

Lemma render_nonempty kv : render kv ≠ EmptyString.
Proof.
  unfold render. intros H. apply str_length_zero in H.
  rewrite !str_length_app in H. simpl in H. lia.
Qed.

Lemma sorted_keys_empty : url.sorted_keys ∅ = [].
Proof. unfold url.sorted_keys. by rewrite map_to_list_empty. Qed.

Lemma Encode_pairs (v : url.Values) :
  url.Encode v = Strings.Join (render <$> pairs v) "&".
Proof.
  unfold url.Encode, pairs.
  destruct (Nat.eqb_spec (size v) 0) as [Hz|Hnz].
  - apply map_size_empty_iff in Hz. subst v. by rewrite sorted_keys_empty.
  - rewrite foldl_Encode_keys, join_onto_Join.
    + by rewrite decide_True.
    + apply Forall_fmap, Forall_forall. intros kv _. apply render_nonempty.
Qed.

(** ** The keys [Encode] walks through *)

Lemma sorted_keys_perm (v : url.Values) :
  url.sorted_keys v ≡ₚ (map_to_list v).*1.
Proof. apply merge_sort_Permutation. Qed.

Lemma sorted_keys_sorted (v : url.Values) :
  StronglySorted String.le (url.sorted_keys v).
Proof. apply StronglySorted_merge_sort; apply _. Qed.

Lemma sorted_keys_NoDup (v : url.Values) : NoDup (url.sorted_keys v).
Proof. rewrite sorted_keys_perm. apply NoDup_fst_map_to_list. Qed.

Lemma elem_of_sorted_keys (v : url.Values) k :
  k ∈ url.sorted_keys v ↔ is_Some (v !! k).
Proof.
  rewrite sorted_keys_perm, list_elem_of_fmap. split.
  - intros ([k' vals] & -> & Hin). apply elem_of_map_to_list in Hin. eauto.
  - intros [vals Hvals]. exists (k, vals). split; [done|].
    by apply elem_of_map_to_list.
Qed.

(** The order of the keys does not depend on the order in which the map
    hands them out: any enumeration of the keys sorts to the same list. *)
Lemma sorted_keys_unique (v : url.Values) (keys : list string) :
  keys ≡ₚ (map_to_list v).*1 → merge_sort String.le keys = url.sorted_keys v.
Proof.
  intros Hperm. apply (Sorted_unique String.le).
  - apply Sorted_merge_sort; apply _.
  - apply Sorted_merge_sort; apply _.
  - unfold url.sorted_keys. by rewrite !merge_sort_Permutation.
Qed.

Lemma values_of_app k l1 l2 :
  values_of k (l1 ++ l2) = values_of k l1 ++ values_of k l2.
Proof. unfold values_of. by rewrite filter_app, fmap_app. Qed.

Lemma values_of_pair_eq k (vals : list string) :
  values_of k (pair k <$> vals) = vals.
Proof.
  unfold values_of. induction vals as [|val vals IH]; [done|].
  csimpl. rewrite filter_cons_True by done. csimpl. by f_equal.
Qed.

Lemma values_of_pair_ne k k' (vals : list string) :
  k' ≠ k → values_of k (pair k' <$> vals) = [].
Proof.
  intros Hne. unfold values_of. induction vals as [|val vals IH]; [done|].
  csimpl. by rewrite filter_cons_False.
Qed.

Lemma values_of_bind k (keys : list string) (vals : string → list string) :
  NoDup keys →
  values_of k (k' ← keys; pair k' <$> vals k') =
  if decide (k ∈ keys) then vals k else [].
Proof.
  induction 1 as [|k' keys Hnotin Hnodup IH]; [done|].
  csimpl. rewrite values_of_app, IH.
  destruct (decide (k' = k)) as [->|Hne].
  - rewrite values_of_pair_eq, decide_False by done.
    rewrite decide_True by left. by rewrite (right_id_L [] (++)).
  - rewrite values_of_pair_ne by done. simpl.
    destruct (decide (k ∈ keys)).
    + rewrite decide_True; [done|by right].
    + rewrite decide_False; [done|]. rewrite elem_of_cons. intros [?|?]; congruence.
Qed.

(** The values written for a key are the values the map holds for it. *)
Lemma values_of_pairs (v : url.Values) k :
  values_of k (pairs v) = url.at_key v k.
Proof.
  unfold pairs. rewrite values_of_bind by apply sorted_keys_NoDup.
  case_decide as Hin; [done|].
  rewrite elem_of_sorted_keys in Hin. unfold url.at_key.
  destruct (v !! k) eqn:Hk; [|done]. destruct Hin. eauto.
Qed.

(** The keys are written in byte-wise ascending order. *)
Lemma pairs_sorted (v : url.Values) : StronglySorted String.le (pairs v).*1.
Proof.
  unfold pairs. generalize (sorted_keys_sorted v).
  induction 1 as [|k keys Hsorted IH Hle]; [constructor|].
  csimpl. rewrite fmap_app. apply StronglySorted_app_2; [| |done].
  - intros k1 k2 Hk1 Hk2.
    apply list_elem_of_fmap in Hk1 as ([? ?] & -> & Hk1).
    apply list_elem_of_fmap in Hk1 as (? & [= <- <-] & _).
    apply list_elem_of_fmap in Hk2 as ([k3 ?] & -> & Hk2).
    apply list_elem_of_bind in Hk2 as (k4 & Hk2 & Hk4).
    apply list_elem_of_fmap in Hk2 as (? & [= <- <-] & _).
    simpl. rewrite Forall_forall in Hle. by apply Hle.
  - induction (url.at_key v k) as [|val vals IHv]; csimpl; [constructor|].
    constructor; [done|]. apply Forall_forall. intros k1 Hk1.
    apply list_elem_of_fmap in Hk1 as ([? ?] & -> & Hk1).
    apply list_elem_of_fmap in Hk1 as (? & [= <- <-] & _). done.
Qed.

(** ** Adding to a map of value lists *)

Lemma at_key_Add (v : url.Values) k' val k :
  url.at_key (url.Add v k' val) k =
  url.at_key v k ++ (if decide (k = k') then [val] else []).
Proof.
  unfold url.Add, url.at_key. case_decide as Hk.
  - subst k'. by rewrite lookup_insert_eq.
  - rewrite lookup_insert_ne by done. by rewrite (right_id_L [] (++)).
Qed.

Lemma at_key_foldl_Add (v : url.Values) k' vals k :
  url.at_key (foldl (λ acc val, url.Add acc k' val) v vals) k =
  url.at_key v k ++ (if decide (k = k') then vals else []).
Proof.
  revert v. induction vals as [|val vals IH]; intros v; simpl.
  - case_decide; by rewrite (right_id_L [] (++)).
  - rewrite IH, at_key_Add. case_decide; simpl.
    + by rewrite <-(assoc_L (++)).
    + by rewrite !(right_id_L [] (++)).
Qed.

Lemma at_key_foldl_range (l : list (string * list string)) (acc : url.Values) k :
  url.at_key
    (foldl (λ acc kv, foldl (λ acc val, url.Add acc kv.1 val) acc kv.2) acc l) k =
  url.at_key acc k ++ (kv ← filter (λ kv, kv.1 = k) l; kv.2).
Proof.
  revert acc. induction l as [|[k' vals] l IH]; intros acc; simpl.
  - by rewrite (right_id_L [] (++)).
  - rewrite IH, at_key_foldl_Add. destruct (decide (k = k')) as [->|Hne].
    + rewrite filter_cons_True by done. csimpl. by rewrite <-(assoc_L (++)).
    + rewrite filter_cons_False by (simpl; congruence).
      by rewrite (right_id_L [] (++)).
Qed.

Lemma filter_key_unique (l : list (string * list string)) k o :
  NoDup l.*1 →
  (∀ vals, (k, vals) ∈ l ↔ o = Some vals) →
  (kv ← filter (λ kv, kv.1 = k) l; kv.2) = default [] o.
Proof.
  revert o. induction l as [|[k' vals'] l IH]; intros o Hnodup Hin.
  - destruct o as [vals|]; [|done].
    exfalso. eapply not_elem_of_nil. by apply Hin.
  - csimpl in Hnodup. apply NoDup_cons in Hnodup as [Hnotin Hnodup].
    destruct (decide (k' = k)) as [->|Hne].
    + rewrite filter_cons_True by done. csimpl.
      assert (o = Some vals') as -> by (apply Hin; left).
      rewrite (IH None); [simpl; by rewrite (right_id_L [] (++))|done|].
      intros vals. split; [|done]. intros Hl. destruct Hnotin.
      apply list_elem_of_fmap. by exists (k, vals).
    + rewrite filter_cons_False by done. apply IH; [done|].
      intros vals. rewrite <-Hin, elem_of_cons. split; [auto|].
      intros [[= ? ?]|?]; [congruence|done].
Qed.

Lemma filter_key_map_to_list (m : gmap string (list string)) k :
  (kv ← filter (λ kv, kv.1 = k) (map_to_list m); kv.2) = default [] (m !! k).
Proof.
  apply filter_key_unique; [apply NoDup_fst_map_to_list|].
  intros vals. apply elem_of_map_to_list.
Qed.

(** The loop of [fullURL] over [c.params] appends, under every key, the
    values of the client after the values already there. *)
Lemma at_key_range_add (m acc : url.Values) k :
  url.at_key (range_add url.Add m acc) k = url.at_key acc k ++ url.at_key m k.
Proof.
  unfold range_add, range_add_in.
  rewrite at_key_foldl_range, filter_key_map_to_list. done.
Qed.

Lemma range_add_empty add (acc : gmap string (list string)) :
  range_add add ∅ acc = acc.
Proof. unfold range_add. by rewrite map_to_list_empty. Qed.

(** ** Slicing and trimming *)

Lemma take_drop n s : Strings.take n s +:+ Strings.drop n s = s.
Proof.
  revert s. induction n as [|n IH]; intros [|a s]; simpl; try done.
  rewrite str_app_cons. by f_equal.
Qed.

Lemma take_app_length s t : Strings.take (String.length s) (s +:+ t) = s.
Proof. induction s as [|a s IH]; simpl; [by destruct t|]. by f_equal. Qed.

Lemma drop_app_length s t : Strings.drop (String.length s) (s +:+ t) = t.
Proof. induction s as [|a s IH]; simpl; [by destruct t|]. done. Qed.

Lemma HasPrefix_true s x :
  Strings.HasPrefix s x = true ↔ ∃ t, s = x +:+ t.
Proof.
  unfold Strings.HasPrefix. rewrite andb_true_iff, bool_decide_eq_true. split.
  - intros [_ Htake]. exists (Strings.drop (String.length x) s).
    rewrite <-(take_drop (String.length x) s) at 1. by rewrite Htake.
  - intros [t ->]. rewrite take_app_length. split; [|done].
    apply Nat.leb_le. rewrite str_length_app. lia.
Qed.

Lemma HasSuffix_true s x :
  Strings.HasSuffix s x = true ↔ ∃ t, s = t +:+ x.
Proof.
  unfold Strings.HasSuffix. rewrite andb_true_iff, bool_decide_eq_true. split.
  - intros [_ Hdrop]. exists (Strings.take (String.length s - String.length x) s).
    rewrite <-(take_drop (String.length s - String.length x) s) at 1.
    by rewrite Hdrop.
  - intros [t ->]. rewrite str_length_app.
    replace (String.length t + String.length x - String.length x)%nat
      with (String.length t) by lia.
    rewrite drop_app_length. split; [|done]. apply Nat.leb_le. lia.
Qed.

Lemma TrimPrefix_cases s x :
  (Strings.HasPrefix s x = true ∧ s = x +:+ Strings.TrimPrefix s x) ∨
  (Strings.HasPrefix s x = false ∧ Strings.TrimPrefix s x = s).
Proof.
  unfold Strings.TrimPrefix. destruct (Strings.HasPrefix s x) eqn:Hp; [left|by right].
  split; [done|]. apply HasPrefix_true in Hp as [t ->].
  by rewrite drop_app_length.
Qed.

Lemma TrimSuffix_cases s x :
  (Strings.HasSuffix s x = true ∧ s = Strings.TrimSuffix s x +:+ x) ∨
  (Strings.HasSuffix s x = false ∧ Strings.TrimSuffix s x = s).
Proof.
  unfold Strings.TrimSuffix. destruct (Strings.HasSuffix s x) eqn:Hs; [left|by right].
  split; [done|]. apply HasSuffix_true in Hs as [t ->].
  rewrite str_length_app.
  replace (String.length t + String.length x - String.length x)%nat
    with (String.length t) by lia.
  by rewrite take_app_length.
Qed.

(** Trimming takes one slash away: what is left ends in a slash only if
    the string ended in two. *)
Lemma TrimSuffix_slash_once s :
  Strings.HasSuffix s "//" = false →
  Strings.HasSuffix (Strings.TrimSuffix s "/") "/" = false.
Proof.
  intros Hno. destruct (TrimSuffix_cases s "/") as [[_ Hs]|[Hs ->]]; [|done].
  apply not_true_is_false. intros Ht. apply HasSuffix_true in Ht as [t Ht].
  rewrite Ht in Hs. assert (Strings.HasSuffix s "//" = true); [|congruence].
  apply HasSuffix_true. exists t. rewrite Hs. by rewrite str_app_assoc.
Qed.

Lemma TrimPrefix_slash_once s :
  Strings.HasPrefix s "//" = false →
  Strings.HasPrefix (Strings.TrimPrefix s "/") "/" = false.
Proof.
  intros Hno. destruct (TrimPrefix_cases s "/") as [[_ Hs]|[Hs ->]]; [|done].
  apply not_true_is_false. intros Ht. apply HasPrefix_true in Ht as [t Ht].
  rewrite Ht in Hs. assert (Strings.HasPrefix s "//" = true); [|congruence].
  apply HasPrefix_true. exists t. by rewrite Hs.
Qed.

(** ** Where the query string starts

    What [URL.String] writes before the query string holds neither [?] nor
    [#], so the [?] that [URL.String] writes is the first of the URL and the
    query string runs from there to the fragment. *)

Lemma all_app p s t :
  Strings.all p (s +:+ t) = Strings.all p s && Strings.all p t.
Proof.
  induction s as [|a s IH]; [done|].
  rewrite str_app_cons. simpl. by rewrite IH, andb_assoc.
Qed.

Lemma free_of_app bad s t : free_of bad (s +:+ t) = free_of bad s && free_of bad t.
Proof. apply all_app. Qed.

Lemma all_take p n s : Strings.all p s = true → Strings.all p (Strings.take n s) = true.
Proof.
  revert s. induction n as [|n IH]; intros [|a s]; simpl; try done.
  rewrite !andb_true_iff. intros [? ?]. auto.
Qed.

Lemma all_drop p n s : Strings.all p s = true → Strings.all p (Strings.drop n s) = true.
Proof.
  revert s. induction n as [|n IH]; intros [|a s]; simpl; try done.
  rewrite !andb_true_iff. intros [? ?]. auto.
Qed.

Lemma escape_cons c s mode :
  url.escape (String c s) mode =
  url.escape (String c EmptyString) mode +:+ url.escape s mode.
Proof. simpl. repeat case_match; reflexivity. Qed.

Lemma escape_byte_free c mode :
  mode ≠ url.encodeFragment →
  free_of "?#" (url.escape (String c EmptyString) mode) = true.
Proof.
  intros Hmode.
  destruct mode; try done;
    destruct c as [[] [] [] [] [] [] [] []]; vm_compute; reflexivity.
Qed.

Lemma escape_free s mode :
  mode ≠ url.encodeFragment → free_of "?#" (url.escape s mode) = true.
Proof.
  intros Hmode. induction s as [|c s IH]; [done|].
  by rewrite escape_cons, free_of_app, escape_byte_free, IH.
Qed.

Lemma validEncoded_byte_free c :
  Char.one_of "!$&'()*+,;=:@" c || Char.one_of "[]" c || Char.eqb c "%"
  || negb (url.shouldEscape c url.encodePath) = true →
  negb (Char.one_of "?#" c) = true.
Proof. destruct c as [[] [] [] [] [] [] [] []]; vm_compute; congruence. Qed.

Lemma validEncoded_free s :
  url.validEncoded s url.encodePath = true → free_of "?#" s = true.
Proof.
  unfold url.validEncoded, free_of. induction s as [|c s IH]; [done|].
  simpl. rewrite !andb_true_iff. intros [Hc Hs].
  split; [by apply validEncoded_byte_free|by apply IH].
Qed.

Lemma EscapedPath_free (u : url.URL) : free_of "?#" (url.EscapedPath u) = true.
Proof.
  unfold url.EscapedPath.
  destruct (negb (bool_decide (url.RawPath u = EmptyString))
            && url.validEncoded (url.RawPath u) url.encodePath
            && match url.unescape (url.RawPath u) url.encodePath with
               | Ok p => bool_decide (p = url.Path u)
               | Err _ => false
               end) eqn:Hraw.
  - apply andb_true_iff in Hraw as [Hraw _].
    apply andb_true_iff in Hraw as [_ Hraw]. by apply validEncoded_free.
  - clear Hraw. destruct (bool_decide (url.Path u = "*"));
      [reflexivity|by apply escape_free].
Qed.

Lemma Userinfo_String_free ui : free_of "?#" (url.Userinfo_String ui) = true.
Proof.
  unfold url.Userinfo_String. rewrite free_of_app, escape_free by done.
  destruct (url.passwordSet ui); [|done].
  by rewrite free_of_app, escape_free.
Qed.

(** The part before the query string is free of [?] and [#] as soon as the
    scheme and the opaque part are. *)
Lemma String_hier_free (u : url.URL) :
  free_of "?#" (url.Scheme u) = true →
  free_of "?#" (url.Opaque u) = true →
  free_of "?#" (url.String_hier u) = true.
Proof.
  intros Hscheme Hopaque. unfold url.String_hier.
  pose proof (EscapedPath_free u) as Hpath.
  pose proof (escape_free (url.Host u) url.encodeHost ltac:(done)) as Hhost.
  repeat case_match;
    rewrite ?free_of_app, ?Hscheme, ?Hopaque, ?Hpath, ?Hhost,
      ?Userinfo_String_free;
    reflexivity.
Qed.

Lemma free_of_split s :
  free_of "?#" s = free_of "?" s && free_of "#" s.
Proof.
  unfold free_of. induction s as [|c s IH]; [done|].
  cbn [Strings.all]. rewrite IH.
  assert (negb (Char.one_of "?#" c) =
          negb (Char.one_of "?" c) && negb (Char.one_of "#" c)) as ->.
  { cbn [Char.one_of]. by destruct (Char.eqb "?" c), (Char.eqb "#" c). }
  rewrite <-!andb_assoc. f_equal.
  rewrite !andb_assoc. f_equal. apply andb_comm.
Qed.

Lemma HasPrefix_byte a s c :
  Strings.HasPrefix (String a s) (String c EmptyString) = Char.eqb c a.
Proof.
  unfold Strings.HasPrefix, Char.eqb. simpl.
  destruct (Ascii.eqb_spec c a) as [->|Hne].
  - by rewrite bool_decide_eq_true_2.
  - rewrite bool_decide_eq_false_2; [done|]. congruence.
Qed.

(** What [Cut] leaves before a one-byte separator is free of it, and both
    parts are made of bytes of the string. *)
Lemma Cut_byte s c before after found :
  Strings.Cut s (String c EmptyString) = (before, after, found) →
  free_of (String c EmptyString) before = true ∧
  ∀ p, Strings.all p s = true →
       Strings.all p before = true ∧ Strings.all p after = true.
Proof.
  revert before after found. induction s as [|a s IH]; intros before after found.
  - simpl. intros [= <- <- <-]. done.
  - cbn [Strings.Cut]. rewrite HasPrefix_byte.
    destruct (Char.eqb c a) eqn:Hca.
    + simpl. intros [= <- <- <-]. split; [done|].
      intros p. simpl. rewrite andb_true_iff. by intros [_ ?].
    + destruct (Strings.Cut s (String c EmptyString)) as [[b' a'] f'] eqn:Hcut.
      intros [= <- <- <-]. destruct (IH _ _ _ eq_refl) as [Hfree Hall].
      split.
      * unfold free_of in *. cbn [Strings.all]. rewrite Hfree.
        cbn [Char.one_of]. by rewrite Hca.
      * intros p. simpl. rewrite !andb_true_iff. intros [Ha Hs].
        destruct (Hall p Hs). auto.
Qed.

Lemma CountByte_zero_free s c :
  Strings.CountByte s c = 0%nat → free_of (String c EmptyString) s = true.
Proof.
  unfold free_of. induction s as [|a s IH]; [done|].
  cbn [Strings.all Char.one_of Strings.CountByte].
  unfold Char.eqb. rewrite (Ascii.eqb_sym c a).
  destruct (Ascii.eqb a c); simpl; [lia|]. done.
Qed.

Lemma CountByte_app s t c :
  Strings.CountByte (s +:+ t) c = (Strings.CountByte s c + Strings.CountByte t c)%nat.
Proof.
  induction s as [|a s IH]; [done|]. rewrite str_app_cons. simpl.
  rewrite IH. lia.
Qed.

(** The split of the query string off the rest, in [parse]. *)
Lemma parse_query_split rest :
  let '(rest', rawQuery, forceQuery) :=
    if Strings.HasSuffix rest "?" && Nat.eqb (Strings.CountByte rest "?") 1
    then (Strings.take (String.length rest - 1) rest, EmptyString, true)
    else let '(before, after, _) := Strings.Cut rest "?" in (before, after, false) in
  free_of "?" rest' = true ∧
  ∀ p, Strings.all p rest = true → Strings.all p rest' = true.
Proof.
  destruct (Strings.HasSuffix rest "?" && Nat.eqb (Strings.CountByte rest "?") 1)
    eqn:Hforce.
  - apply andb_true_iff in Hforce as [Hsuffix Hcount].
    apply HasSuffix_true in Hsuffix as [t ->]. apply Nat.eqb_eq in Hcount.
    rewrite CountByte_app in Hcount. simpl in Hcount.
    rewrite str_length_app. simpl.
    replace (String.length t + 1 - 1)%nat with (String.length t) by lia.
    rewrite take_app_length. split.
    + apply CountByte_zero_free. lia.
    + intros p. rewrite all_app, andb_true_iff. by intros [? _].
  - destruct (Strings.Cut rest "?") as [[before after] found] eqn:Hcut.
    apply Cut_byte in Hcut as [Hfree Hall]. split; [done|].
    intros p Hp. by destruct (Hall p Hp).
Qed.

Lemma scheme_byte_lower_free c :
  scheme_byte c = true → negb (Char.one_of "?#" (Char.to_lower c)) = true.
Proof. destruct c as [[] [] [] [] [] [] [] []]; vm_compute; congruence. Qed.

Lemma ToLower_scheme_free s :
  Strings.all scheme_byte s = true → free_of "?#" (Strings.ToLower s) = true.
Proof.
  unfold free_of. induction s as [|c s IH]; [done|]. simpl.
  rewrite !andb_true_iff. intros [Hc Hs].
  split; [by apply scheme_byte_lower_free|by apply IH].
Qed.

Lemma getScheme_from_spec rawURL pre s scheme rest :
  rawURL = pre +:+ s →
  Strings.all scheme_byte pre = true →
  url.getScheme_from rawURL (String.length pre) s = Ok (scheme, rest) →
  Strings.all scheme_byte scheme = true ∧
  ∀ p, Strings.all p rawURL = true → Strings.all p rest = true.
Proof.
  revert pre. induction s as [|c s IH]; intros pre Hraw Hpre;
    cbn [url.getScheme_from].
  { intros [= <- <-]. done. }
  assert (Hnext : rawURL = (pre +:+ String c EmptyString) +:+ s).
  { by rewrite Hraw, str_app_assoc. }
  assert (Hlen : S (String.length pre) = String.length (pre +:+ String c EmptyString)).
  { rewrite str_length_app. simpl. lia. }
  assert (Hstep : scheme_byte c = true →
    url.getScheme_from rawURL (S (String.length pre)) s = Ok (scheme, rest) →
    Strings.all scheme_byte scheme = true ∧
    ∀ p, Strings.all p rawURL = true → Strings.all p rest = true).
  { intros Hc. rewrite Hlen. apply IH; [done|].
    rewrite all_app, Hpre. simpl. by rewrite Hc. }
  destruct (Char.is_lower c || Char.is_upper c) eqn:Hletter.
  { apply Hstep. unfold scheme_byte.
    by rewrite <-!orb_assoc, orb_assoc, Hletter. }
  destruct (Char.is_digit c || Char.one_of "+-." c) eqn:Hdigit.
  { destruct (Nat.eqb (String.length pre) 0); [by intros [= <- <-]|].
    apply Hstep. unfold scheme_byte. by rewrite <-orb_assoc, Hdigit, orb_true_r. }
  destruct (Char.eqb c ":"); [|by intros [= <- <-]].
  destruct (Nat.eqb (String.length pre) 0); [done|].
  intros [= <- <-]. rewrite Hraw, take_app_length. split; [done|].
  intros p. rewrite all_app. simpl. rewrite !andb_true_iff. by intros [_ [_ ?]].
Qed.

Lemma getScheme_spec rawURL scheme rest :
  url.getScheme rawURL = Ok (scheme, rest) →
  free_of "?#" (Strings.ToLower scheme) = true ∧
  ∀ p, Strings.all p rawURL = true → Strings.all p rest = true.
Proof.
  intros Hgs.
  destruct (getScheme_from_spec rawURL EmptyString rawURL scheme rest)
    as [Hscheme Hrest]; [done..|].
  split; [by apply ToLower_scheme_free|done].
Qed.

Lemma setPath_fields (u u' : url.URL) p :
  url.setPath u p = Ok u' →
  url.Scheme u' = url.Scheme u ∧ url.Opaque u' = url.Opaque u.
Proof.
  unfold url.setPath. destruct (url.unescape p url.encodePath); [|done].
  by intros [= <-].
Qed.

Lemma setFragment_fields (u u' : url.URL) f :
  url.setFragment u f = Ok u' →
  url.Scheme u' = url.Scheme u ∧ url.Opaque u' = url.Opaque u.
Proof.
  unfold url.setFragment. destruct (url.unescape f url.encodeFragment); [|done].
  by intros [= <-].
Qed.

Lemma parse_free rawURL viaRequest (u : url.URL) :
  free_of "#" rawURL = true →
  url.parse rawURL viaRequest = Ok u →
  free_of "?#" (url.Scheme u) = true ∧ free_of "?#" (url.Opaque u) = true.
Proof.
  intros Hraw. unfold url.parse.
  destruct (url.stringContainsCTLByte rawURL); [done|].
  destruct (bool_decide (rawURL = EmptyString) && viaRequest); [done|].
  destruct (bool_decide (rawURL = "*")); [by intros [= <-]|].
  destruct (url.getScheme rawURL) as [[scheme rest]|e] eqn:Hgs; [|done].
  apply getScheme_spec in Hgs as [Hscheme Hrest].
  cbn [mbind result_bind].
  pose proof (parse_query_split rest) as Hsplit.
  destruct (if Strings.HasSuffix rest "?" && Nat.eqb (Strings.CountByte rest "?") 1
            then _ else _) as [[rest' rawQuery] forceQuery].
  destruct Hsplit as [Hq Hsub].
  assert (Hrest' : free_of "?#" rest' = true).
  { rewrite free_of_split, Hq. apply Hsub, Hrest, Hraw. }
  destruct (negb (Strings.HasPrefix rest' "/")
            && negb (bool_decide (Strings.ToLower scheme = EmptyString)));
    [by intros [= <-]|].
  destruct (negb (Strings.HasPrefix rest' "/") && viaRequest); [done|].
  destruct (negb (Strings.HasPrefix rest' "/") && _); [done|].
  match goal with
  | |- context [mbind _ ?authority] =>
      destruct authority as [[[[user host] omitHost] rest'']|e]; [|done]
  end.
  cbn [mbind result_bind]. intros Hset.
  apply setPath_fields in Hset as [-> ->]. done.
Qed.

(** The scheme and the opaque part of a parsed URL hold neither [?] nor [#]. *)
Lemma Parse_free rawURL (u : url.URL) :
  url.Parse rawURL = Ok u →
  free_of "?#" (url.Scheme u) = true ∧ free_of "?#" (url.Opaque u) = true.
Proof.
  unfold url.Parse.
  destruct (Strings.Cut rawURL "#") as [[raw frag] found] eqn:Hcut.
  apply Cut_byte in Hcut as [Hfree _].
  destruct (url.parse raw false) as [u0|e] eqn:Hparse; [|done].
  apply parse_free in Hparse; [|done]. cbn [mbind result_bind].
  case_bool_decide; [by intros [= <-]|].
  intros Hfrag. apply setFragment_fields in Hfrag as [-> ->]. done.
Qed.

(** What [URL.String] writes before the query string of a parsed URL holds
    neither [?] nor [#], whatever path and query string the URL is given
    afterwards. *)
Lemma String_hier_parsed rawURL (u : url.URL) path query :
  url.Parse rawURL = Ok u →
  free_of "?#" (url.String_hier (url.set_RawQuery (url.set_Path u path) query)) = true ∧
  free_of "?#" (url.String_hier (url.set_RawQuery u query)) = true.
Proof.
  intros Hparse. apply Parse_free in Hparse as [Hscheme Hopaque].
  split; by apply String_hier_free.
Qed.

Lemma Join_free bad items sep :
  Forall (λ item, free_of bad item = true) items →
  free_of bad sep = true →
  free_of bad (Strings.Join items sep) = true.
Proof.
  intros Hitems Hsep. induction Hitems as [|item items Hitem _ IH]; [done|].
  destruct items as [|item' items]; [done|].
  rewrite Join_cons by done. by rewrite !free_of_app, Hitem, Hsep, IH.
Qed.

(** The query string [Encode] writes holds neither [?] nor [#]. *)
Lemma Encode_free (v : url.Values) : free_of "?#" (url.Encode v) = true.
Proof.
  rewrite Encode_pairs. apply Join_free; [|done].
  apply Forall_fmap, Forall_forall. intros kv _. simpl. unfold render.
  rewrite !free_of_app. unfold url.QueryEscape. by rewrite !escape_free.
Qed.

(** ** Resolving the URL *)

Section resolve.
Context {World any : Type}.
Implicit Types c : @Client World any.

Lemma fullURL_base_unfold c path :
  baseURL c ≠ EmptyString →
  fullURL c path =
  match url.Parse (baseURL c) with
  | Err e => Err (Errorf "invalid baseURL: " e)
  | Ok u => Ok (url.URL_String (resolved_on_base u path (params c)))
  end.
Proof.
  intros Hbase. unfold fullURL. rewrite bool_decide_eq_false_2 by done.
  by destruct (url.Parse (baseURL c)).
Qed.

Lemma URL_String_query_exact (u : url.URL) q :
  url.URL_String (url.set_RawQuery u q) =
  url.String_hier u +:+
  (if url.ForceQuery u || url.nonempty q then "?" +:+ q else EmptyString) +:+
  url.String_fragment u.
Proof. reflexivity. Qed.

(** C1 (amended): for a client whose non-empty base URL parses, [fullURL]
    renders the parsed base URL with its path replaced by the join of the two
    paths and its query string replaced by the encoding of the accumulated
    parameters.  The join takes one trailing slash off the path of the base,
    one leading slash off the given path, and puts one slash in between: when
    the base path does not end in two slashes and the given path does not
    start with two, exactly one slash separates what is left of them.  The
    query string of the result is exactly [Encode] of the accumulated
    parameters, whatever query string the base URL had: the URL is made of a
    part free of [?] and [#], then [?] and the encoded parameters (or nothing,
    when there are none and the base URL did not end in a bare [?]), then
    the fragment of the base URL.  At the base [https://api.example.com] with
    [userId=1] the path [/posts] resolves to
    [https://api.example.com/posts?userId=1]. *)
Theorem fullURL_with_base c path u :
  baseURL c ≠ EmptyString →
  url.Parse (baseURL c) = Ok u →
  let base := Strings.TrimSuffix (url.Path u) "/" in
  let rel := Strings.TrimPrefix path "/" in
  let u' := resolved_on_base u path (params c) in
  fullURL c path = Ok (url.URL_String u') ∧
  url.Path u' = base +:+ "/" +:+ rel ∧
  (url.Path u = base ∨ url.Path u = base +:+ "/") ∧
  (path = rel ∨ path = "/" +:+ rel) ∧
  (Strings.HasSuffix (url.Path u) "//" = false → Strings.HasSuffix base "/" = false) ∧
  (Strings.HasPrefix path "//" = false → Strings.HasPrefix rel "/" = false) ∧
  url.RawQuery u' = url.Encode (params c) ∧
  url.URL_String u' =
    url.String_hier u' +:+
    (if url.ForceQuery u || url.nonempty (url.Encode (params c))
     then "?" +:+ url.Encode (params c) else EmptyString) +:+
    (if url.nonempty (url.Fragment u)
     then "#" +:+ url.EscapedFragment u else EmptyString) ∧
  free_of "?#" (url.String_hier u') = true ∧
  free_of "?#" (url.Encode (params c)) = true ∧
  (∀ t : @httpClient World,
     fullURL (Query (BaseURL (New t : @Client World any) "https://api.example.com")
                "userId" "1") "/posts"
     = Ok "https://api.example.com/posts?userId=1").
Proof.
  intros Hbase Hparse base rel u'.
  split; [by rewrite fullURL_base_unfold, Hparse|].
  split; [done|].
  split.
  { destruct (TrimSuffix_cases (url.Path u) "/") as [[_ H]|[_ H]]; [by right|by left]. }
  split.
  { destruct (TrimPrefix_cases path "/") as [[_ H]|[_ H]]; [by right|by left]. }
  split; [apply TrimSuffix_slash_once|].
  split; [apply TrimPrefix_slash_once|].
  split; [done|].
  split; [done|].
  split.
  { subst u'. unfold resolved_on_base.
    apply (String_hier_parsed (baseURL c) u _ _ Hparse). }
  split; [apply Encode_free|].
  intros t. vm_compute. reflexivity.
Qed.

End resolve.

Lemma fullURL_with_base_witness :
  let c := Query (Scenario.api (Scenario.replying Scenario.reply_200)) "userId" "1" in
  baseURL c ≠ EmptyString ∧
  url.Parse (baseURL c) = Ok Scenario.api_url ∧
  fullURL c "/posts" =
    Ok (url.URL_String (resolved_on_base Scenario.api_url "/posts" (params c))).
Proof.
  split; [discriminate|]. split; [vm_compute; reflexivity|].
  exact (proj1 (fullURL_with_base
                  (Query (Scenario.api (Scenario.replying Scenario.reply_200)) "userId" "1")
                  "/posts" Scenario.api_url
                  ltac:(discriminate) ltac:(vm_compute; reflexivity))).
Defined.

(** C1 as stated fails: with a base URL, a query string carried by the path
    is not discarded but kept in the path of the result, its [?] escaped;
    and a path that starts with two slashes is joined with two. *)
Lemma fullURL_with_base_keeps_path_query :
  let c := Query (Scenario.api (Scenario.replying Scenario.reply_200)) "userId" "1" in
  fullURL c "/posts?x=1" = Ok "https://api.example.com/posts%3Fx=1?userId=1" ∧
  fullURL c "/posts?x=1" ≠ fullURL c "/posts" ∧
  fullURL c "//posts" = Ok "https://api.example.com//posts?userId=1".
Proof. vm_compute. repeat split; discriminate. Qed.

Section query.
Context {World any : Type}.
Implicit Types c : @Client World any.

Lemma fullURL_bare_unfold c path :
  baseURL c = EmptyString →
  fullURL c path =
  match url.Parse path with
  | Err e => Err (Errorf "invalid URL: " e)
  | Ok u =>
      Ok (url.URL_String
            (url.set_RawQuery u
               (url.Encode (range_add url.Add (params c) (url.Query u)))))
  end.
Proof.
  intros Hbase. unfold fullURL. rewrite bool_decide_eq_true_2 by done.
  by destruct (url.Parse path).
Qed.

(** C5 (amended): for a client without a base URL and a path that parses,
    [fullURL] renders the parsed path with its query string (the text
    between the first [?] and the fragment) replaced by the encoding of the
    merged parameters: under every key, the values of the path's own query
    string followed by the values accumulated on the client.
    The keys themselves are written in ascending order, so a parameter of the
    client stands after the parameters of the path only where its key sorts
    after theirs; the path [https://x.test/a?x=1] with [y=2] resolves to
    [https://x.test/a?x=1&y=2]. *)
Theorem fullURL_without_base c path u :
  baseURL c = EmptyString →
  url.Parse path = Ok u →
  let q := range_add url.Add (params c) (url.Query u) in
  fullURL c path = Ok (url.URL_String (url.set_RawQuery u (url.Encode q))) ∧
  url.URL_String (url.set_RawQuery u (url.Encode q)) =
    url.String_hier u +:+
    (if url.ForceQuery u || url.nonempty (url.Encode q)
     then "?" +:+ url.Encode q else EmptyString) +:+
    (if url.nonempty (url.Fragment u)
     then "#" +:+ url.EscapedFragment u else EmptyString) ∧
  free_of "?#" (url.String_hier u) = true ∧
  url.Encode q = Strings.Join (render <$> pairs q) "&" ∧
  (∀ k, values_of k (pairs q) = url.at_key (url.Query u) k ++ url.at_key (params c) k) ∧
  StronglySorted String.le (pairs q).*1 ∧
  (∀ t : @httpClient World,
     fullURL (Query (New t : @Client World any) "y" "2") "https://x.test/a?x=1"
     = Ok "https://x.test/a?x=1&y=2").
Proof.
  intros Hbase Hparse q.
  split; [by rewrite fullURL_bare_unfold, Hparse|].
  split; [done|].
  split; [apply (String_hier_parsed path u EmptyString EmptyString Hparse)|].
  split; [apply Encode_pairs|].
  split; [intros k; subst q; by rewrite values_of_pairs, at_key_range_add|].
  split; [apply pairs_sorted|].
  intros t. vm_compute. reflexivity.
Qed.

(** Whatever the branch, the URL that [fullURL] returns is a rendered URL
    whose query string encodes a map that holds, under every key, the values
    of the client at the end of the list. *)
Lemma fullURL_query_shape c path full :
  fullURL c path = Ok full →
  ∃ (u : url.URL) (q : url.Values),
    full = url.URL_String (url.set_RawQuery u (url.Encode q)) ∧
    ∀ k, ∃ earlier, url.at_key q k = earlier ++ url.at_key (params c) k.
Proof.
  intros Hfull. destruct (decide (baseURL c = EmptyString)) as [Hbase|Hbase].
  - rewrite fullURL_bare_unfold in Hfull by done.
    destruct (url.Parse path) as [u|e]; [|done]. injection Hfull as <-.
    eexists u, _. split; [done|]. intros k. eexists. apply at_key_range_add.
  - rewrite fullURL_base_unfold in Hfull by done.
    destruct (url.Parse (baseURL c)) as [u|e]; [|done]. injection Hfull as <-.
    eexists (url.set_Path u _), (params c). split; [done|]. intros k. by exists [].
Qed.

Lemma Query_commute c k1 v1 k2 v2 :
  k1 ≠ k2 → Query (Query c k1 v1) k2 v2 = Query (Query c k2 v2) k1 v1.
Proof.
  intros Hne. unfold Query. simpl. f_equal. unfold url.Add, url.at_key.
  rewrite !lookup_insert_ne by done. by rewrite insert_insert_ne.
Qed.

End query.

Lemma fullURL_without_base_witness :
  let c := Query (Scenario.bare (Scenario.replying Scenario.reply_200)) "y" "2" in
  baseURL c = EmptyString ∧
  url.Parse "https://x.test/a?x=1" = Ok Scenario.x_test_url ∧
  fullURL c "https://x.test/a?x=1" =
    Ok (url.URL_String
          (url.set_RawQuery Scenario.x_test_url
             (url.Encode (range_add url.Add (params c) (url.Query Scenario.x_test_url))))).
Proof.
  split; [reflexivity|]. split; [vm_compute; reflexivity|].
  exact (proj1 (fullURL_without_base
                  (Query (Scenario.bare (Scenario.replying Scenario.reply_200)) "y" "2")
                  "https://x.test/a?x=1" Scenario.x_test_url
                  ltac:(reflexivity) ltac:(vm_compute; reflexivity))).
Defined.

(** C5 as stated fails: a parameter of the client whose key sorts before a
    key of the path is written before the parameter of the path, not after. *)
Lemma fullURL_without_base_not_appended :
  let c := Query (Scenario.bare (Scenario.replying Scenario.reply_200)) "a" "2" in
  fullURL c "https://x.test/a?x=1" = Ok "https://x.test/a?a=2&x=1" ∧
  fullURL c "https://x.test/a?x=1" ≠ Ok "https://x.test/a?x=1&a=2".
Proof. vm_compute. split; [reflexivity|discriminate]. Qed.

(** ** Repeated keys *)

Section repeated.
Context {World any : Type}.
Implicit Types c : @Client World any.

Lemma params_foldl_Query c k vs k' :
  url.at_key (params (foldl (λ c v, Query c k v) c vs)) k' =
  url.at_key (params c) k' ++ (if decide (k' = k) then vs else []).
Proof.
  revert c. induction vs as [|v vs IH]; intros c; simpl.
  - case_decide; by rewrite (right_id_L [] (++)).
  - rewrite IH. change (params (Query c k v)) with (url.Add (params c) k v).
    rewrite at_key_Add.
    case_decide; simpl; by rewrite <-?(assoc_L (++)), ?(right_id_L [] (++)).
Qed.

Lemma str_app_eq_nil s t : s +:+ t = EmptyString → s = EmptyString ∧ t = EmptyString.
Proof. destruct s; [done|]. rewrite str_app_cons. done. Qed.

Lemma occurs_in_URL_String sub (u : url.URL) :
  occurs_in sub (url.RawQuery u) → occurs_in sub (url.URL_String u).
Proof.
  intros Hsub. unfold url.URL_String, url.String_query.
  destruct (url.ForceQuery u || url.nonempty (url.RawQuery u)) eqn:Hq.
  - by apply occurs_in_app_l, occurs_in_app_r, occurs_in_app_l.
  - apply orb_false_iff in Hq as [_ Hq]. unfold url.nonempty in Hq.
    apply negb_false_iff, bool_decide_eq_true in Hq. rewrite Hq in Hsub.
    destruct Hsub as (pre & post & Heq). symmetry in Heq.
    apply str_app_eq_nil in Heq as [_ Heq].
    apply str_app_eq_nil in Heq as [-> _].
    by exists EmptyString, (url.String_hier u +:+ EmptyString +:+ url.String_fragment u).
Qed.

Lemma occurs_in_pairs (q : url.Values) k earlier vs :
  url.at_key q k = earlier ++ vs →
  occurs_in (Strings.Join (render <$> (pair k <$> vs)) "&")
            (Strings.Join (render <$> pairs q) "&").
Proof.
  intros Hk. destruct vs as [|v vs].
  { by exists EmptyString, (Strings.Join (render <$> pairs q) "&"). }
  assert (Hin : k ∈ url.sorted_keys q).
  { apply elem_of_sorted_keys. unfold url.at_key in Hk.
    destruct (q !! k); [done|]. by destruct earlier. }
  apply list_elem_of_split in Hin as (keys1 & keys2 & Hkeys).
  unfold pairs. rewrite Hkeys, bind_app. csimpl.
  rewrite Hk, !fmap_app, <-!(assoc_L (++)).
  rewrite (assoc_L (++) (render <$> _) (render <$> (pair k <$> earlier))).
  apply occurs_in_Join_middle.
Qed.

(** C6: after any number of calls of [Query] with one key, the query string
    of the resolved URL holds, for that key, all the values of these calls in
    the order of the calls, after the values the key had before; written out,
    the pairs of these calls stand next to each other, in that order, in the
    URL. *)
Theorem Query_repeated_key c k vs path full :
  fullURL (foldl (λ c v, Query c k v) c vs) path = Ok full →
  ∃ (u : url.URL) (kvs : list (string * string)) (earlier : list string),
    full = url.URL_String u ∧
    url.RawQuery u = Strings.Join (render <$> kvs) "&" ∧
    values_of k kvs = earlier ++ vs ∧
    occurs_in (Strings.Join (render <$> (pair k <$> vs)) "&") full.
Proof.
  intros Hfull.
  destruct (fullURL_query_shape _ path full Hfull) as (u & q & -> & Hq).
  destruct (Hq k) as [earlier Hk].
  rewrite params_foldl_Query, decide_True, (assoc_L (++)) in Hk by done.
  exists (url.set_RawQuery u (url.Encode q)), (pairs q),
         (earlier ++ url.at_key (params c) k).
  split; [done|]. split; [apply Encode_pairs|].
  split; [by rewrite values_of_pairs|].
  apply occurs_in_URL_String. change (url.RawQuery _) with (url.Encode q).
  rewrite Encode_pairs. by eapply occurs_in_pairs.
Qed.

End repeated.

Lemma Query_repeated_key_witness :
  let c := Query (Scenario.api (Scenario.replying Scenario.reply_200)) "tag" "a" in
  fullURL (foldl (λ c v, Query c "tag" v) c ["z"; "b"]) "/posts"
    = Ok "https://api.example.com/posts?tag=a&tag=z&tag=b" ∧
  ∃ (u : url.URL) (kvs : list (string * string)) (earlier : list string),
    "https://api.example.com/posts?tag=a&tag=z&tag=b" = url.URL_String u ∧
    url.RawQuery u = Strings.Join (render <$> kvs) "&" ∧
    values_of "tag" kvs = earlier ++ ["z"; "b"] ∧
    occurs_in (Strings.Join (render <$> (pair "tag" <$> ["z"; "b"])) "&")
              "https://api.example.com/posts?tag=a&tag=z&tag=b".
Proof.
  split; [vm_compute; reflexivity|].
  exact (Query_repeated_key
           (Query (Scenario.api (Scenario.replying Scenario.reply_200)) "tag" "a")
           "tag" ["z"; "b"] "/posts" "https://api.example.com/posts?tag=a&tag=z&tag=b"
           ltac:(vm_compute; reflexivity)).
Defined.

(** ** Running a request *)

Section run.
Context {World any : Type} `{!Marshaler any}.
Implicit Types c : @Client World any.

Lemma not_2xx code :
  (code <? http.StatusOK) || (code >=? http.StatusMultipleChoices) = true
  ↔ ¬ is_2xx code.
Proof.
  unfold is_2xx, http.StatusOK, http.StatusMultipleChoices.
  rewrite orb_true_iff, Z.ltb_lt, Z.geb_le. lia.
Qed.

Lemma do_outcome c ctx method path w :
  let '(r, c', w') := do c ctx method path w in
  outcome c ctx method path w r c' w'.
Proof.
  unfold do.
  destruct (fullURL c path) as [full|e] eqn:Hfull; [|by constructor].
  destruct (request c ctx method full) as [req|e] eqn:Hreq;
    [|by econstructor].
  destruct (client c req w) as [[h|e] w1] eqn:Hdo; [|by econstructor].
  destruct ((http.StatusCode h <? http.StatusOK)
            || (http.StatusCode h >=? http.StatusMultipleChoices)) eqn:Hcode.
  - apply not_2xx in Hcode.
    destruct (http.ReadAll (http.RespBody h)).1 as [data [e|]] eqn:Hread.
    + by eapply read_failed.
    + by eapply status_failed.
  - eapply succeeded; eauto.
    destruct (decide (is_2xx (http.StatusCode h))) as [|Hno]; [done|].
    apply not_2xx in Hno. congruence.
Qed.

Lemma request_marshal_failed c ctx method full v e :
  body c = Some v → json_Marshal v = Err e →
  request c ctx method full = Err e.
Proof. intros Hbody Hm. unfold request. by rewrite Hbody, Hm. Qed.

End run.

Section effects.
Context {World any : Type} `{!Marshaler any}.
Implicit Types c : @Client World any.

(** Two equations about one call give one outcome. *)
Ltac same_call :=
  repeat match goal with
    | H1 : ?t = _, H2 : ?t = _ |- _ => rewrite H1 in H2; simplify_eq
    end.

Ltac by_outcome c ctx method path w :=
  let H := fresh "Hout" in
  pose proof (do_outcome c ctx method path w) as H;
  destruct (do c ctx method path w) as [[? ?] ?];
  inversion H; subst; clear H.


Lemma As_HTTPError_Is (e : error) (he : HTTPError) :
  errors.As_HTTPError e = Some he → errors.Is e ErrNotOK = true.
Proof.
  induction e as [|he'|prefix e IH|f]; [done|done| |done].
  cbn [errors.As_HTTPError errors.Is]. intros He. by apply IH.
Qed.

Lemma HTTPErr_matches_ErrNotOK (e : HTTPError) :
  errors.Is (HTTPErr e) ErrNotOK = true ∧
  errors.Unwrap (HTTPErr e) = Some ErrNotOK ∧
  errors.As_HTTPError (HTTPErr e) = Some e.
Proof. done. Qed.

(** C4 (amended): when the transport returns a response, a status code in
    [200,300) gives a wrapper that holds this response and no error; any other
    status code, when the body of the response is read to its end without a
    read error, gives a wrapper whose error is an [HTTPError] with the status
    code and the status text of the response, the method of the request, the
    resolved URL and the bytes read, and this error matches [ErrNotOK] through
    its [Unwrap]. *)
Theorem do_classifies_status c ctx method path w full req h w1 :
  fullURL c path = Ok full →
  request c ctx method full = Ok req →
  client c req w = (Ok h, w1) →
  let r := (do c ctx method path w).1.1 in
  (is_2xx (http.StatusCode h) → r = mkResp (Some h) None) ∧
  (¬ is_2xx (http.StatusCode h) →
   ∀ data, (http.ReadAll (http.RespBody h)).1 = (data, None) →
     r = mkResp None
           (Some (HTTPErr (HTTPError.mk (http.StatusCode h) (http.Status h)
                             method full data))) ∧
     (∀ e, err r = Some e →
        errors.Is e ErrNotOK = true ∧
        errors.As_HTTPError e =
          Some (HTTPError.mk (http.StatusCode h) (http.Status h) method full data))).
Proof.
  intros Hfull Hreq Hdo r. subst r.
  by_outcome c ctx method path w; same_call; simpl.
  - split; [done|]. intros _ data' Hread. same_call.
  - split; [done|]. intros _ data' Hread. same_call.
    split; [done|]. by intros e [= <-].
  - split; [done|]. done.
Qed.

(** C10 (amended): when the transport returns a response whose status is
    not 2xx and reading the body of the response fails, the error of the
    wrapper is the read error itself, as the stream returned it: it is not
    wrapped, and no [HTTPError] is built from the response.  Provided the read
    error does not itself match [ErrNotOK] (no error made by [io], [net/http]
    or the network does), the error of the wrapper does not match [ErrNotOK],
    is no [HTTPError], and [errors.As] finds no [HTTPError] in it. *)
Theorem do_read_failure_is_raw c ctx method path w full req h w1 data e :
  fullURL c path = Ok full →
  request c ctx method full = Ok req →
  client c req w = (Ok h, w1) →
  ¬ is_2xx (http.StatusCode h) →
  (http.ReadAll (http.RespBody h)).1 = (data, Some e) →
  let r := (do c ctx method path w).1.1 in
  r = mkResp None (Some e) ∧
  (errors.Is e ErrNotOK = false →
   ∀ e', err r = Some e' →
     errors.Is e' ErrNotOK = false ∧
     errors.As_HTTPError e' = None ∧
     ∀ he, e' ≠ HTTPErr he) ∧
  (∀ f, e = External f → errors.Is e ErrNotOK = false).
Proof.
  intros Hfull Hreq Hdo Hcode Hread r. subst r.
  by_outcome c ctx method path w; same_call; simpl; try done.
  split; [done|]. split; [|by intros f ->].
  intros He e' [= <-]. split; [done|]. split; [|by intros he ->].
  match goal with
  | |- errors.As_HTTPError ?x = None =>
      destruct (errors.As_HTTPError x) as [he|] eqn:Has; [|done];
      apply As_HTTPError_Is in Has; congruence
  end.
Qed.

End effects.

Lemma do_classifies_status_witness :
  let c := Scenario.api (Scenario.replying Scenario.reply_404) in
  let h := http.mkResponse 404 "404 Not Found" (Scenario.stream "{}") in
  ¬ is_2xx (http.StatusCode h) ∧
  (do c Scenario.ctx "GET" "/posts/0" []).1.1 =
    mkResp None
      (Some (HTTPErr (HTTPError.mk 404 "404 Not Found" "GET"
                        "https://api.example.com/posts/0" "{}"))).
Proof.
  assert (Hcode : ¬ is_2xx 404) by (unfold is_2xx; lia).
  split; [exact Hcode|].
  refine (proj1 (proj2 (do_classifies_status
            (Scenario.api (Scenario.replying Scenario.reply_404))
            Scenario.ctx "GET" "/posts/0" [] "https://api.example.com/posts/0"
            _ _ _ ltac:(vm_compute; reflexivity) ltac:(vm_compute; reflexivity)
            ltac:(vm_compute; reflexivity)) Hcode "{}" ltac:(vm_compute; reflexivity))).
Defined.

(** C4 as stated fails: a response with status 500 whose body cannot be
    read to its end gives a wrapper whose error is the read error, which is no
    [HTTPError] and does not match [ErrNotOK]. *)
Lemma do_status_error_needs_readable_body :
  let c := Scenario.api (Scenario.replying Scenario.reply_500_broken) in
  let r := (do c Scenario.ctx "GET" "/posts" []).1.1 in
  err r = Some (External (mkForeignError "io" "unexpected EOF")) ∧
  errors.As_HTTPError (External (mkForeignError "io" "unexpected EOF")) = None ∧
  errors.Is (External (mkForeignError "io" "unexpected EOF")) ErrNotOK = false.
Proof. vm_compute. done. Qed.

Lemma do_read_failure_is_raw_witness :
  let c := Scenario.api (Scenario.replying Scenario.reply_500_broken) in
  let r := (do c Scenario.ctx "GET" "/posts" []).1.1 in
  let e := External (mkForeignError "io" "unexpected EOF") in
  ¬ is_2xx 500 ∧
  errors.Is e ErrNotOK = false ∧
  r = mkResp None (Some e) ∧
  (∀ e', err r = Some e' →
     errors.Is e' ErrNotOK = false ∧
     errors.As_HTTPError e' = None ∧
     ∀ he, e' ≠ HTTPErr he).
Proof.
  assert (Hcode : ¬ is_2xx 500) by (unfold is_2xx; lia).
  split; [exact Hcode|]. split; [reflexivity|].
  pose proof (do_read_failure_is_raw
                (Scenario.api (Scenario.replying Scenario.reply_500_broken))
                Scenario.ctx "GET" "/posts" [] "https://api.example.com/posts"
                _ _ _ "<html>" (External (mkForeignError "io" "unexpected EOF"))
                ltac:(vm_compute; reflexivity) ltac:(vm_compute; reflexivity)
                ltac:(vm_compute; reflexivity) Hcode
                ltac:(vm_compute; reflexivity)) as (Hr & Hno & _).
  exact (conj Hr (Hno eq_refl)).
Defined.

(** C10 as stated fails: the body of a response with status 500 whose
    [Read] fails with [ErrNotOK] gives a wrapper whose error is that read
    error, and so matches [ErrNotOK]. *)
Lemma do_read_failure_can_match_ErrNotOK :
  let c := Scenario.api (Scenario.replying Scenario.reply_500_not_ok) in
  let h := http.mkResponse 500 "500 Internal Server Error"
             (Scenario.failing_stream EmptyString ErrNotOK) in
  let r := (do c Scenario.ctx "GET" "/posts" []).1.1 in
  Scenario.reply_500_not_ok = Ok h ∧
  ¬ is_2xx (http.StatusCode h) ∧
  (http.ReadAll (http.RespBody h)).1 = (EmptyString, Some ErrNotOK) ∧
  r = mkResp None (Some ErrNotOK) ∧
  errors.Is ErrNotOK ErrNotOK = true.
Proof.
  split; [reflexivity|]. split; [unfold is_2xx; simpl; lia|].
  split; [reflexivity|]. split; [vm_compute; reflexivity|reflexivity].
Qed.

(** ** Headers of the request *)

Lemma at_key_Header_Add (h : http.MIMEHeader) k' v k :
  http.at_key (http.Header_Add h k' v) k =
  http.at_key h k ++
  (if decide (k = http.CanonicalMIMEHeaderKey k') then [v] else []).
Proof.
  unfold http.Header_Add, http.at_key. case_decide as Hk.
  - subst k. by rewrite lookup_insert_eq.
  - rewrite lookup_insert_ne by done. by rewrite (right_id_L [] (++)).
Qed.

(** The loop of [do] over [c.headers] only appends: under every key, the
    values already in the request stay in front; and it appends nothing under
    a key that no header of the client is canonically spelled as. *)
Lemma at_key_foldl_Header_Add (l : list (string * list string))
    (acc : http.MIMEHeader) k :
  ∃ extra,
    http.at_key
      (foldl (λ acc kv, foldl (λ acc v, http.Header_Add acc kv.1 v) acc kv.2) acc l) k
    = http.at_key acc k ++ extra ∧
    (Forall (λ kv, http.CanonicalMIMEHeaderKey kv.1 ≠ k) l → extra = []).
Proof.
  revert acc. induction l as [|[k' vals] l IH]; intros acc; simpl.
  { exists []. by rewrite (right_id_L [] (++)). }
  assert (Hinner : ∀ acc,
    http.at_key (foldl (λ acc v, http.Header_Add acc k' v) acc vals) k =
    http.at_key acc k ++
    (if decide (k = http.CanonicalMIMEHeaderKey k') then vals else [])).
  { clear. induction vals as [|v vals IHv]; intros acc; simpl.
    - case_decide; by rewrite (right_id_L [] (++)).
    - rewrite IHv, at_key_Header_Add.
      case_decide; simpl; by rewrite <-?(assoc_L (++)), ?(right_id_L [] (++)). }
  destruct (IH (foldl (λ acc v, http.Header_Add acc k' v) acc vals))
    as (extra & Hextra & Hnone).
  rewrite Hextra, Hinner, <-(assoc_L (++)). eexists. split; [done|].
  intros Hall. apply Forall_cons in Hall as [Hk' Hall]. simpl in Hk'.
  rewrite decide_False by done. by rewrite Hnone.
Qed.

(** ** [Reset] *)

Section reset.
Context {World any : Type} `{!Marshaler any}.
Implicit Types c : @Client World any.

Lemma request_without_headers c ctx method full req :
  headers c = ∅ → body c = None →
  request c ctx method full = Ok req →
  http.Header req = ∅ ∧ http.Body req = None.
Proof.
  intros Hh Hb Hreq. unfold request in Hreq. rewrite Hb, Hh in Hreq.
  cbn [mbind result_bind] in Hreq.
  destruct (http.NewRequestWithContext ctx method full None)
    as [req0|e] eqn:Hnew; [|done].
  assert (Hempty : http.Header req0 = ∅ ∧ http.Body req0 = None).
  { unfold http.NewRequestWithContext in Hnew.
    repeat case_match; simplify_eq; try done.
    all: destruct (url.Parse full); simpl in Hnew; by simplify_eq. }
  destruct Hempty as [Hempty Hnone].
  rewrite (bool_decide_eq_false_2 (is_Some None)) in Hreq
    by (intros [? ?]; done).
  cbn [andb] in Hreq. injection Hreq as <-. cbn [http.Header http.Body].
  by rewrite range_add_empty.
Qed.

(** C7: [Reset] empties the query parameters and the headers and clears the
    body, and leaves the base URL and the transport as they were; resetting
    twice is resetting once.  The client after [Reset] is the client that
    [New], [BaseURL] and [HTTPClient] build from the same base URL and
    transport, so a call after [Reset] sends a request without headers and
    without a body, to a URL whose query string holds no parameter of the
    client: none at all with a base URL, those of the path itself without. *)
Theorem Reset_clears c :
  baseURL (Reset c) = baseURL c ∧
  client (Reset c) = client c ∧
  params (Reset c) = ∅ ∧ headers (Reset c) = ∅ ∧ body (Reset c) = None ∧
  Reset (Reset c) = Reset c ∧
  (∀ d, Reset c = HTTPClient (BaseURL (New d) (baseURL c)) (client c)) ∧
  (∀ ctx method full req,
     request (Reset c) ctx method full = Ok req →
     http.Header req = ∅ ∧ http.Body req = None) ∧
  (∀ path u,
     baseURL c ≠ EmptyString → url.Parse (baseURL c) = Ok u →
     fullURL (Reset c) path =
       Ok (url.URL_String
             (url.set_RawQuery (url.set_Path u (joined_path (url.Path u) path))
                               EmptyString))) ∧
  (∀ path u,
     baseURL c = EmptyString → url.Parse path = Ok u →
     fullURL (Reset c) path =
       Ok (url.URL_String (url.set_RawQuery u (url.Encode (url.Query u))))).
Proof.
  do 7 (split; [done|]).
  split.
  { intros ctx method full req Hreq.
    by eapply (request_without_headers (Reset c)). }
  split.
  - intros path u Hbase Hparse. rewrite fullURL_base_unfold by done.
    cbn [Reset baseURL params]. by rewrite Hparse.
  - intros path u Hbase Hparse. rewrite fullURL_bare_unfold by done.
    cbn [Reset baseURL params]. by rewrite Hparse, range_add_empty.
Qed.

End reset.

(** ** The accessors of the wrapper *)

(** C8: on a wrapper that holds an error, every accessor returns this error
    and leaves the wrapper, and so any stream in it, as it was: [Raw] returns
    nil bytes, [Body] a nil stream, [Error] the error, and [Into] the zero
    value of the target type. *)
Theorem accessors_return_error {T : Type} `{!Decoder T} (r : Response) e :
  err r = Some e →
  Raw r = Returns ((None, Some e), r) ∧
  Response_Body r = Returns (None, Some e) ∧
  Error r = Some e ∧
  Into (T := T) r = Returns ((zero, Some e), r).
Proof.
  intros He. unfold Raw, Response_Body, Error, Into. rewrite He. done.
Qed.

Lemma accessors_return_error_witness :
  let r := mkResp None (Some ErrNotOK) in
  err r = Some ErrNotOK ∧
  Raw r = Returns ((None, Some ErrNotOK), r) ∧
  Response_Body r = Returns (None, Some ErrNotOK) ∧
  Error r = Some ErrNotOK ∧
  Into (T := bool) r = Returns ((false, Some ErrNotOK), r).
Proof.
  split; [reflexivity|].
  exact (accessors_return_error (T := bool) (mkResp None (Some ErrNotOK))
           ErrNotOK eq_refl).
Defined.

(** ** The order of a [range] over a map does not matter *)

Lemma at_key_range_add_in (m acc : url.Values) l k :
  l ≡ₚ map_to_list m →
  url.at_key (range_add_in url.Add l acc) k = url.at_key acc k ++ url.at_key m k.
Proof.
  intros Hperm. unfold range_add_in.
  rewrite at_key_foldl_range, (filter_key_unique l k (m !! k)); [done| |].
  - rewrite Hperm. apply NoDup_fst_map_to_list.
  - intros vals. rewrite Hperm. apply elem_of_map_to_list.
Qed.

Lemma StronglySorted_filter {A} (R : relation A) (P : A → Prop)
    `{∀ x, Decision (P x)} (l : list A) :
  StronglySorted R l → StronglySorted R (filter P l).
Proof.
  induction 1 as [|x l Hs IH Hall]; [constructor|].
  rewrite filter_cons. case_decide; [|done]. constructor; [done|].
  apply Forall_forall. intros y Hy. apply list_elem_of_filter in Hy as [_ Hy].
  rewrite Forall_forall in Hall. auto.
Qed.

Lemma at_key_nonempty_Some (v : url.Values) k :
  url.at_key v k ≠ [] → is_Some (v !! k).
Proof. unfold url.at_key. destruct (v !! k); [eauto|done]. Qed.

Lemma pairs_ext (v1 v2 : url.Values) :
  (∀ k, url.at_key v1 k = url.at_key v2 k) → pairs v1 = pairs v2.
Proof.
  intros Hext.
  assert (Hdrop : ∀ (v : url.Values) keys,
    (k ← keys; pair k <$> url.at_key v k) =
    (k ← filter (λ k, url.at_key v k ≠ []) keys; pair k <$> url.at_key v k)).
  { intros v keys. induction keys as [|k keys IH]; [done|]. csimpl.
    destruct (decide (url.at_key v k = [])) as [Hk|Hk].
    - rewrite filter_cons_False by (intros ?; done). by rewrite Hk.
    - rewrite filter_cons_True by done. csimpl. by rewrite IH. }
  unfold pairs. rewrite (Hdrop v1), (Hdrop v2).
  assert (Hkeys : filter (λ k, url.at_key v1 k ≠ []) (url.sorted_keys v1) =
                  filter (λ k, url.at_key v2 k ≠ []) (url.sorted_keys v2)).
  { apply (StronglySorted_unique String.le).
    - apply StronglySorted_filter, sorted_keys_sorted.
    - apply StronglySorted_filter, sorted_keys_sorted.
    - apply NoDup_Permutation.
      + apply NoDup_filter, sorted_keys_NoDup.
      + apply NoDup_filter, sorted_keys_NoDup.
      + intros k. rewrite !list_elem_of_filter, !elem_of_sorted_keys.
        split; intros [Hne _]; (split; [|apply at_key_nonempty_Some]);
          congruence. }
  rewrite Hkeys. apply list_bind_ext; [|done].
  intros k. by rewrite Hext.
Qed.

(** [Encode] reads a map through the values of its keys only. *)
Lemma Encode_ext (v1 v2 : url.Values) :
  (∀ k, url.at_key v1 k = url.at_key v2 k) → url.Encode v1 = url.Encode v2.
Proof. intros Hext. by rewrite !Encode_pairs, (pairs_ext v1 v2). Qed.

(** Whatever the order in which [fullURL] meets the keys of [c.params], the
    query string it encodes is the same. *)
Lemma Encode_range_any_order (m acc : url.Values) l :
  l ≡ₚ map_to_list m →
  url.Encode (range_add_in url.Add l acc) = url.Encode (range_add url.Add m acc).
Proof.
  intros Hperm. apply Encode_ext. intros k.
  by rewrite (at_key_range_add_in m), at_key_range_add.
Qed.

Section sorted_query.
Context {World any : Type} `{!Marshaler any}.
Implicit Types c : @Client World any.

(** C9: whenever [fullURL] succeeds (the one text it parses, the path
    without a base URL and the base URL otherwise, parsed to [u]), the URL it
    returns carries, between its first [?] and its fragment, the pairs of one
    map joined by [&], with the keys in byte-wise ascending order.  The map
    holds, under every key, the values of the path's own query string
    (without a base URL only) followed by the values of the client in the
    order of the calls of [Query]; so the parameters that were in the path
    are sorted in with those of the client.  Two calls of [Query] with
    different keys can be swapped, and a path whose query string holds the
    same parameters in another order gives the same query string. *)
Theorem fullURL_keys_sorted c path u :
  let bare := bool_decide (baseURL c = EmptyString) in
  url.Parse (if bare then path else baseURL c) = Ok u →
  let q := if bare then range_add url.Add (params c) (url.Query u) else params c in
  let u' := url.set_RawQuery
              (if bare then u else url.set_Path u (joined_path (url.Path u) path))
              (url.Encode q) in
  fullURL c path = Ok (url.URL_String u') ∧
  url.URL_String u' =
    url.String_hier u' +:+
    (if url.ForceQuery u || url.nonempty (url.Encode q)
     then "?" +:+ url.Encode q else EmptyString) +:+
    (if url.nonempty (url.Fragment u)
     then "#" +:+ url.EscapedFragment u else EmptyString) ∧
  free_of "?#" (url.String_hier u') = true ∧
  free_of "?#" (url.Encode q) = true ∧
  url.Encode q = Strings.Join (render <$> pairs q) "&" ∧
  StronglySorted String.le (pairs q).*1 ∧
  (∀ k, values_of k (pairs q) =
        (if bare then url.at_key (url.Query u) k else []) ++
        url.at_key (params c) k) ∧
  (∀ k1 v1 k2 v2, k1 ≠ k2 →
     fullURL (Query (Query c k1 v1) k2 v2) path =
     fullURL (Query (Query c k2 v2) k1 v1) path) ∧
  (∀ path2 u2,
     bare = true → url.Parse path2 = Ok u2 →
     (∀ k, url.at_key (url.Query u2) k = url.at_key (url.Query u) k) →
     url.Encode (range_add url.Add (params c) (url.Query u2)) = url.Encode q).
Proof.
  intros bare Hparse q u'. subst bare q u'.
  case_bool_decide as Hbase.
  - split; [by rewrite fullURL_bare_unfold, Hparse|].
    split; [done|].
    split; [apply (String_hier_parsed path u EmptyString _ Hparse)|].
    split; [apply Encode_free|].
    split; [apply Encode_pairs|].
    split; [apply pairs_sorted|].
    split; [intros k; by rewrite values_of_pairs, at_key_range_add|].
    split; [intros k1 v1 k2 v2 Hne; by rewrite Query_commute|].
    intros path2 u2 _ Hparse2 Hsame. apply Encode_ext. intros k.
    by rewrite !at_key_range_add, Hsame.
  - split; [by rewrite fullURL_base_unfold, Hparse|].
    split; [done|].
    split; [apply (String_hier_parsed (baseURL c) u _ _ Hparse)|].
    split; [apply Encode_free|].
    split; [apply Encode_pairs|].
    split; [apply pairs_sorted|].
    split; [intros k; by rewrite values_of_pairs|].
    split; [intros k1 v1 k2 v2 Hne; by rewrite Query_commute|].
    by intros path2 u2 [=].
Qed.

End sorted_query.

Lemma fullURL_keys_sorted_witness :
  let c := Query (Query (Scenario.bare (Scenario.replying Scenario.reply_200))
                    "y" "2") "a" "1" in
  let q := range_add url.Add (params c) (url.Query Scenario.x_test_url) in
  url.Parse "https://x.test/a?x=1" = Ok Scenario.x_test_url ∧
  fullURL c "https://x.test/a?x=1" = Ok "https://x.test/a?a=1&x=1&y=2" ∧
  fullURL c "https://x.test/a?x=1" =
    Ok (url.URL_String (url.set_RawQuery Scenario.x_test_url (url.Encode q))) ∧
  url.Encode q = Strings.Join (render <$> pairs q) "&" ∧
  StronglySorted String.le (pairs q).*1.
Proof.
  split; [vm_compute; reflexivity|]. split; [vm_compute; reflexivity|].
  pose proof (fullURL_keys_sorted
                (Query (Query (Scenario.bare (Scenario.replying Scenario.reply_200))
                          "y" "2") "a" "1")
                "https://x.test/a?x=1" Scenario.x_test_url
                ltac:(vm_compute; reflexivity))
    as (Hfull & _ & _ & _ & Hjoin & Hsorted & _).
  exact (conj Hfull (conj Hjoin Hsorted)).
Defined.

(** ** Canonical header keys *)

Lemma canonical_byte_idem (upper : bool) (c : ascii) :
  let f (c : ascii) :=
    if upper && Char.is_lower c then Char.to_upper c
    else if negb upper && Char.is_upper c then Char.to_lower c
    else c in
  f (f c) = f c ∧
  (http.validHeaderFieldByte c = true → http.validHeaderFieldByte (f c) = true).
Proof.
  destruct upper, c as [[] [] [] [] [] [] [] []]; vm_compute; split; congruence.
Qed.

Lemma canonical_from_idem upper s :
  http.canonical_from upper (http.canonical_from upper s) =
  http.canonical_from upper s.
Proof.
  revert upper. induction s as [|c s IH]; intros upper; [done|].
  cbn [http.canonical_from]. cbv zeta.
  destruct (canonical_byte_idem upper c) as [Hidem _]. cbv zeta in Hidem.
  rewrite Hidem. f_equal. apply IH.
Qed.

Lemma canonical_from_valid upper s :
  Strings.all http.validHeaderFieldByte s = true →
  Strings.all http.validHeaderFieldByte (http.canonical_from upper s) = true.
Proof.
  revert upper. induction s as [|c s IH]; intros upper; [done|].
  cbn [http.canonical_from Strings.all]. cbv zeta.
  rewrite !andb_true_iff. intros [Hc Hs]. split; [|by apply IH].
  destruct (canonical_byte_idem upper c) as [_ Hvalid]. by apply Hvalid.
Qed.

(** [CanonicalMIMEHeaderKey] returns keys in canonical form. *)
Lemma CanonicalMIMEHeaderKey_idem s :
  http.CanonicalMIMEHeaderKey (http.CanonicalMIMEHeaderKey s) =
  http.CanonicalMIMEHeaderKey s.
Proof.
  unfold http.CanonicalMIMEHeaderKey.
  destruct (Strings.all http.validHeaderFieldByte s) eqn:Hs.
  - by rewrite canonical_from_valid, canonical_from_idem.
  - by rewrite Hs.
Qed.

Lemma canonical_keys_empty : canonical_keys ∅.
Proof. intros k [vals Hk]. by rewrite lookup_empty in Hk. Qed.

Lemma canonical_keys_Header_Add h k v :
  canonical_keys h → canonical_keys (http.Header_Add h k v).
Proof.
  intros Hh k' Hk'. unfold http.Header_Add in Hk'.
  destruct (decide (http.CanonicalMIMEHeaderKey k = k')) as [<-|Hne].
  - apply CanonicalMIMEHeaderKey_idem.
  - rewrite lookup_insert_ne in Hk' by done. by apply Hh.
Qed.

(** The header keys of every client a program can hold are canonical. *)
Lemma built_canonical_keys {World any : Type} `{!Marshaler any}
    (c : @Client World any) :
  built c → canonical_keys (headers c).
Proof.
  induction 1 as [| | | c k v _ IH | | | |c ctx method path w _ IH];
    try done; try apply canonical_keys_empty.
  - by apply canonical_keys_Header_Add.
  - pose proof (do_outcome c ctx method path w) as Hout.
    destruct (do c ctx method path w) as [[r c'] w']. simpl.
    by inversion Hout; subst.
Qed.

Lemma Header_Add_canonical (h : http.MIMEHeader) k v :
  http.CanonicalMIMEHeaderKey k = k → http.Header_Add h k v = url.Add h k v.
Proof. intros Hk. unfold http.Header_Add. by rewrite Hk. Qed.

Lemma range_add_in_Header (l : list (string * list string)) (acc : http.MIMEHeader) :
  Forall (λ kv, http.CanonicalMIMEHeaderKey kv.1 = kv.1) l →
  range_add_in http.Header_Add l acc = range_add_in url.Add l acc.
Proof.
  unfold range_add_in. intros Hl. revert acc.
  induction Hl as [|[k vals] l Hk Hl IH]; intros acc; [done|].
  simpl in *. rewrite <-IH. f_equal. clear IH.
  revert acc. induction vals as [|v vals IHv]; intros acc; [done|].
  simpl. by rewrite IHv, Header_Add_canonical.
Qed.

(** Whatever the order in which [do] meets the keys of [c.headers], the
    request carries, under every key, the values it had followed by the
    values of the client. *)
Lemma at_key_range_Header_any_order (hs acc : http.MIMEHeader) l k :
  canonical_keys hs →
  l ≡ₚ map_to_list hs →
  http.at_key (range_add_in http.Header_Add l acc) k =
  http.at_key acc k ++ http.at_key hs k.
Proof.
  intros Hcanon Hperm. rewrite range_add_in_Header.
  - by apply at_key_range_add_in.
  - apply Forall_forall. intros [k' vals] Hin. simpl. apply Hcanon.
    rewrite Hperm in Hin. apply elem_of_map_to_list in Hin. eauto.
Qed.

(** ** The default [Content-Type] *)

Section content_type.
Context {World any : Type} `{!Marshaler any}.
Implicit Types c : @Client World any.

(** C2, on the code: when a body is set, the request always carries
    [application/json] as the first value of [Content-Type], which is the
    value [Header.Get] returns; the headers of the client are added after it.
    So a request without a [Content-Type] header of the caller carries
    exactly [application/json], and a [Content-Type] set by the caller with
    [Header] does not keep the default away: it is added behind it.  For a
    client with canonical header keys (every client a program can hold) the
    values under each key are given in full. *)
Theorem request_content_type c ctx method full req v :
  body c = Some v →
  request c ctx method full = Ok req →
  (∃ rest,
     http.at_key (http.Header req) "Content-Type" = "application/json" :: rest) ∧
  http.Header_Get (http.Header req) "Content-Type" = "application/json" ∧
  ((∀ k, is_Some (headers c !! k) →
         http.CanonicalMIMEHeaderKey k ≠ "Content-Type") →
   http.at_key (http.Header req) "Content-Type" = ["application/json"]) ∧
  (canonical_keys (headers c) →
   ∀ k, http.at_key (http.Header req) k =
        (if decide (k = "Content-Type") then ["application/json"] else []) ++
        http.at_key (headers c) k).
Proof.
  intros Hbody Hreq. unfold request in Hreq. rewrite Hbody in Hreq.
  destruct (json_Marshal v) as [b|e]; [|done]. simpl in Hreq.
  destruct (http.NewRequestWithContext ctx method full (Some b))
    as [req0|e] eqn:Hnew; [|done].
  assert (Hempty : http.Header req0 = ∅).
  { unfold http.NewRequestWithContext in Hnew.
    repeat case_match; simplify_eq; try done.
    all: destruct (url.Parse full); simpl in Hnew; by simplify_eq. }
  cbn [mbind result_bind] in Hreq. rewrite Hempty in Hreq.
  change (bool_decide (http.Header_Get ∅ "Content-Type" = EmptyString))
    with true in Hreq.
  injection Hreq as <-. cbn [http.Header].
  destruct (at_key_foldl_Header_Add (map_to_list (headers c))
              (http.Header_Set ∅ "Content-Type" "application/json")
              "Content-Type") as (extra & Hextra & Hnone).
  assert (Hget : http.at_key (range_add http.Header_Add (headers c)
                   (http.Header_Set ∅ "Content-Type" "application/json"))
                   "Content-Type" = "application/json" :: extra).
  { unfold range_add, range_add_in. by rewrite Hextra. }
  split; [by eexists|].
  split.
  { unfold http.Header_Get.
    change (http.CanonicalMIMEHeaderKey "Content-Type") with "Content-Type".
    by rewrite Hget. }
  split.
  { intros Hkeys. rewrite Hget, Hnone; [done|].
    apply Forall_forall. intros [k vals] Hin. simpl.
    apply Hkeys. apply elem_of_map_to_list in Hin. eauto. }
  intros Hcanon k.
  change (range_add http.Header_Add (headers c) ?acc)
    with (range_add_in http.Header_Add (map_to_list (headers c)) acc).
  rewrite (at_key_range_Header_any_order (headers c)) by done.
  f_equal. unfold http.at_key, http.Header_Set.
  change (http.CanonicalMIMEHeaderKey "Content-Type") with "Content-Type".
  case_decide as Hk.
  - subst k. by rewrite lookup_insert_eq.
  - by rewrite lookup_insert_ne, lookup_empty.
Qed.

End content_type.

Lemma request_content_type_witness :
  let c := Body (Header (Scenario.api (Scenario.replying Scenario.reply_200))
                   "content-type" "text/plain")
                (Some (Scenario.Flag true)) in
  ∃ req,
    request c Scenario.ctx "POST" "https://api.example.com/posts" = Ok req ∧
    http.at_key (http.Header req) "Content-Type" = ["application/json"; "text/plain"] ∧
    http.Header_Get (http.Header req) "Content-Type" = "application/json".
Proof.
  eexists. split; [vm_compute; reflexivity|]. split; [vm_compute; reflexivity|].
  refine (proj1 (proj2 (request_content_type
            (Body (Header (Scenario.api (Scenario.replying Scenario.reply_200))
                     "content-type" "text/plain")
                  (Some (Scenario.Flag true)))
            Scenario.ctx "POST" "https://api.example.com/posts" _
            (Scenario.Flag true)
            ltac:(reflexivity) ltac:(vm_compute; reflexivity)))).
Defined.

(** ** Scenarios *)

(** A status 404 with a body: the error of the wrapper matches [ErrNotOK]
    and the [HTTPError] in it holds the bytes of the body. *)
Example scenario_not_found :
  let c := Scenario.api (Scenario.replying Scenario.reply_404) in
  let '(r, c', w') := Get c Scenario.ctx "/posts/0" [] in
  ∃ e he,
    Error r = Some e ∧ errors.Is e ErrNotOK = true ∧
    errors.As_HTTPError e = Some he ∧
    HTTPError.StatusCode he = 404 ∧ HTTPError.Body he = "{}" ∧
    HTTPError_Error he = "GET https://api.example.com/posts/0: 404 Not Found: {}".
Proof. vm_compute. eexists _, _. repeat split. Qed.

(** A body is set and the first call fails in the transport: the body stays,
    and the second call sends it again and clears it on success. *)
Example scenario_retry :
  let c := Body (Scenario.api Scenario.flaky) (Some (Scenario.Flag true)) in
  let '(r1, c1, w1) := Post c Scenario.ctx "/posts" [] in
  let '(r2, c2, w2) := Post c1 Scenario.ctx "/posts" w1 in
  Error r1 = Some (External (mkForeignError "net" "connection refused")) ∧
  body c1 = Some (Scenario.Flag true) ∧
  Error r2 = None ∧ body c2 = None ∧
  http.Body <$> w2 = [Some "true"; Some "true"] ∧
  (λ req, http.at_key (http.Header req) "Content-Type") <$> w2
    = [["application/json"]; ["application/json"]].
Proof. vm_compute. repeat split. Qed.

(** Without a base URL a malformed path gives an error, wrapped by
    [fullURL]; no request is sent. *)
Example scenario_malformed_path :
  let c := Scenario.bare (Scenario.replying Scenario.reply_200) in
  let '(r, c', w') := Get c Scenario.ctx "https://x.test/%zz" [] in
  Error r = Some (Errorf "invalid URL: "
                    (External (mkForeignError "net/url" "invalid URL escape"))) ∧
  w' = [].
Proof. vm_compute. repeat split. Qed.

(** A body that cannot be marshalled: no request is sent and the body
    stays. *)
Example scenario_marshal_failure :
  let c := Body (Scenario.api (Scenario.replying Scenario.reply_200))
                (Some Scenario.Channel) in
  let '(r, c', w') := Post c Scenario.ctx "/posts" [] in
  Error r = Some (External (mkForeignError "encoding/json" "unsupported type: chan int")) ∧
  body c' = Some Scenario.Channel ∧ w' = [].
Proof. vm_compute. repeat split. Qed.

(** A successful response read through [Raw], and through [Into] at the
    type [bool], which the array in the body does not fit. *)
Example scenario_read :
  let c := Scenario.api (Scenario.replying Scenario.reply_200) in
  let '(r, c', w') := Get c Scenario.ctx "/posts" [] in
  (∃ r', Raw r = Returns ((Some "[]", None), r')) ∧
  (∃ r', Into (T := bool) r =
           Returns ((false, Some (json.UnmarshalTypeError "array" "bool")), r')).
Proof. vm_compute. split; eexists; reflexivity. Qed.

(** A body that holds [true] decoded by [Into]; after it the body is closed
    and [Raw] has nothing to read. *)
Example scenario_decode :
  let c := Scenario.api (Scenario.replying Scenario.reply_true) in
  let '(r, c', w') := Get c Scenario.ctx "/flag" [] in
  ∃ r', Into (T := bool) r = Returns ((true, None), r') ∧
        Raw r' = Returns ((Some EmptyString, Some read_on_closed), r').
Proof. vm_compute. eexists. split; reflexivity. Qed.

(** * Further properties of the code *)

(** ** The query string decodes back to the parameters *)

Lemma QueryEscape_byte_round c rest :
  url.unescape_check (url.escape (String c EmptyString) url.encodeQueryComponent
                      +:+ rest) url.encodeQueryComponent
  = url.unescape_check rest url.encodeQueryComponent ∧
  url.unescape_build (url.escape (String c EmptyString) url.encodeQueryComponent
                      +:+ rest) url.encodeQueryComponent
  = String c (url.unescape_build rest url.encodeQueryComponent).
Proof. destruct c as [[] [] [] [] [] [] [] []]; split; reflexivity. Qed.

(** [QueryUnescape] undoes [QueryEscape]. *)
Lemma QueryUnescape_QueryEscape s :
  url.QueryUnescape (url.QueryEscape s) = Ok s.
Proof.
  unfold url.QueryUnescape, url.QueryEscape, url.unescape.
  assert (H : url.unescape_check (url.escape s url.encodeQueryComponent)
                url.encodeQueryComponent = Ok tt ∧
              url.unescape_build (url.escape s url.encodeQueryComponent)
                url.encodeQueryComponent = s).
  { induction s as [|c s [IH1 IH2]]; [done|].
    rewrite escape_cons.
    destruct (QueryEscape_byte_round c (url.escape s url.encodeQueryComponent))
      as [-> ->].
    by rewrite IH1, IH2. }
  destruct H as [-> ->]. done.
Qed.

Lemma QueryEscape_byte_free c :
  free_of "&=;" (url.escape (String c EmptyString) url.encodeQueryComponent) = true.
Proof. destruct c as [[] [] [] [] [] [] [] []]; vm_compute; reflexivity. Qed.

(** An escaped key or value holds none of the delimiters of a query. *)
Lemma QueryEscape_free s : free_of "&=;" (url.QueryEscape s) = true.
Proof.
  unfold url.QueryEscape. induction s as [|c s IH]; [done|].
  by rewrite escape_cons, free_of_app, QueryEscape_byte_free, IH.
Qed.

Lemma free_of_one bad c s :
  Char.one_of bad c = true → free_of bad s = true →
  free_of (String c EmptyString) s = true.
Proof.
  intros Hc. unfold free_of. induction s as [|a s IH]; [done|].
  cbn [Strings.all]. rewrite !andb_true_iff. intros [Ha Hs].
  split; [|by apply IH]. cbn [Char.one_of]. rewrite orb_false_r.
  unfold Char.eqb. destruct (Ascii.eqb_spec c a) as [->|]; [|done].
  by rewrite Hc in Ha.
Qed.

Lemma Cut_free s c :
  free_of (String c EmptyString) s = true →
  Strings.Cut s (String c EmptyString) = (s, EmptyString, false).
Proof.
  unfold free_of. induction s as [|a s IH]; [done|].
  cbn [Strings.all Strings.Cut Char.one_of]. rewrite HasPrefix_byte, orb_false_r.
  rewrite andb_true_iff. intros [Ha Hs].
  apply negb_true_iff in Ha. rewrite Ha, IH by done. done.
Qed.

Lemma Cut_first s t c :
  free_of (String c EmptyString) s = true →
  Strings.Cut (s +:+ String c t) (String c EmptyString) = (s, t, true).
Proof.
  unfold free_of. induction s as [|a s IH].
  - intros _. rewrite str_app_nil_l. cbn [Strings.Cut].
    rewrite HasPrefix_byte. unfold Char.eqb. by rewrite Ascii.eqb_refl.
  - cbn [Strings.all Char.one_of]. rewrite orb_false_r, andb_true_iff.
    intros [Ha Hs]. apply negb_true_iff in Ha.
    rewrite str_app_cons. cbn [Strings.Cut].
    rewrite HasPrefix_byte, Ha, IH by done. done.
Qed.

Lemma SplitByte_free s c :
  free_of (String c EmptyString) s = true → url.SplitByte s c = [s].
Proof.
  unfold free_of. induction s as [|a s IH]; [done|].
  cbn [Strings.all Char.one_of url.SplitByte]. rewrite orb_false_r, andb_true_iff.
  intros [Ha Hs]. apply negb_true_iff in Ha.
  unfold Char.eqb in *. rewrite Ascii.eqb_sym, Ha, IH by done. done.
Qed.

Lemma SplitByte_first s t c :
  free_of (String c EmptyString) s = true →
  url.SplitByte (s +:+ String c t) c = s :: url.SplitByte t c.
Proof.
  unfold free_of. induction s as [|a s IH].
  - intros _. rewrite str_app_nil_l. cbn [url.SplitByte].
    unfold Char.eqb. by rewrite Ascii.eqb_refl.
  - cbn [Strings.all Char.one_of]. rewrite orb_false_r, andb_true_iff.
    intros [Ha Hs]. apply negb_true_iff in Ha.
    rewrite str_app_cons. cbn [url.SplitByte].
    unfold Char.eqb in *. rewrite Ascii.eqb_sym, Ha, IH by done. done.
Qed.

Lemma SplitByte_Join items c :
  Forall (λ item, free_of (String c EmptyString) item = true) items →
  items ≠ [] →
  url.SplitByte (Strings.Join items (String c EmptyString)) c = items.
Proof.
  induction 1 as [|item items Hitem Hitems IH]; [done|]. intros _.
  destruct items as [|item' items]; [by apply SplitByte_free|].
  rewrite Join_cons by done.
  change (item +:+ String c EmptyString +:+ ?t) with (item +:+ String c t).
  rewrite SplitByte_first by done. f_equal. by apply IH.
Qed.

Lemma render_free c kv :
  Char.one_of "&;" c = true → free_of (String c EmptyString) (render kv) = true.
Proof.
  intros Hc. unfold render. rewrite !free_of_app.
  assert (Hbad : Char.one_of "&=;" c = true ∧ free_of (String c EmptyString) "=" = true).
  { destruct c as [[] [] [] [] [] [] [] []]; vm_compute in Hc |- *; done. }
  destruct Hbad as [Hbad ->].
  by rewrite !(free_of_one "&=;" c) by (done || apply QueryEscape_free).
Qed.

(** One turn of the loop of [ParseQuery] on a pair that [Encode] wrote adds
    the pair. *)
Lemma parseQuery_pair_render (m : url.Values) kv :
  url.parseQuery_pair (m, None) (render kv) = (url.Add m kv.1 kv.2, None).
Proof.
  unfold url.parseQuery_pair, Strings.Contains.
  rewrite Cut_free by (by apply render_free). cbn [snd].
  rewrite bool_decide_eq_false_2 by apply render_nonempty.
  unfold render.
  change (?k +:+ "=" +:+ ?t) with (k +:+ String "="%char t).
  rewrite Cut_first
    by (apply (free_of_one "&=;"); [done|apply QueryEscape_free]).
  by rewrite !QueryUnescape_QueryEscape.
Qed.

Lemma parseQuery_pairs_render (m : url.Values) kvs :
  foldl url.parseQuery_pair (m, None) (render <$> kvs)
  = (foldl (λ m kv, url.Add m kv.1 kv.2) m kvs, None).
Proof.
  revert m. induction kvs as [|kv kvs IH]; intros m; [done|].
  rewrite fmap_cons. cbn [foldl]. by rewrite parseQuery_pair_render, IH.
Qed.

Lemma at_key_foldl_Add_pairs (m : url.Values) kvs k :
  url.at_key (foldl (λ m kv, url.Add m kv.1 kv.2) m kvs) k
  = url.at_key m k ++ values_of k kvs.
Proof.
  revert m. induction kvs as [|[k' val] kvs IH]; intros m.
  - unfold values_of. cbn [foldl]. rewrite filter_nil, fmap_nil.
    by rewrite (right_id_L [] (++)).
  - cbn [foldl]. rewrite IH, at_key_Add. unfold values_of. cbn [fst snd].
    destruct (decide (k = k')) as [->|Hne].
    + rewrite filter_cons_True by done. rewrite fmap_cons.
      by rewrite <-(assoc_L (++)).
    + rewrite filter_cons_False by (simpl; congruence).
      by rewrite (right_id_L [] (++)).
Qed.

Lemma nonempty_values_empty : nonempty_values ∅.
Proof. intros k vals Hk. by rewrite lookup_empty in Hk. Qed.

Lemma nonempty_values_insert_snoc (m : gmap string (list string)) k l val :
  nonempty_values m → nonempty_values (<[k := l ++ [val]]> m).
Proof.
  intros Hm k' vals. destruct (decide (k' = k)) as [->|Hne].
  - rewrite lookup_insert_eq. intros [= <-]. by destruct l.
  - rewrite lookup_insert_ne by done. apply Hm.
Qed.

Lemma nonempty_values_foldl_Add (m : url.Values) kvs :
  nonempty_values m →
  nonempty_values (foldl (λ m kv, url.Add m kv.1 kv.2) m kvs).
Proof.
  revert m. induction kvs as [|kv kvs IH]; intros m Hm; [done|].
  cbn [foldl]. apply IH. by apply nonempty_values_insert_snoc.
Qed.

(** Two maps without empty entries that hold the same values under every
    key are the same map. *)
Lemma nonempty_values_ext (m1 m2 : gmap string (list string)) :
  nonempty_values m1 → nonempty_values m2 →
  (∀ k, default [] (m1 !! k) = default [] (m2 !! k)) → m1 = m2.
Proof.
  intros H1 H2 Heq. apply map_eq. intros k. specialize (Heq k).
  destruct (m1 !! k) as [l1|] eqn:E1, (m2 !! k) as [l2|] eqn:E2;
    simpl in Heq; subst; try done.
  - by destruct (H1 _ _ E1).
  - by destruct (H2 _ _ E2).
Qed.

(** What [ParseQuery] makes of the output of [Encode]. *)
Lemma ParseQuery_Encode_pairs (v : url.Values) :
  url.ParseQuery (url.Encode v)
  = (foldl (λ m kv, url.Add m kv.1 kv.2) ∅ (pairs v), None).
Proof.
  unfold url.ParseQuery. rewrite Encode_pairs.
  destruct (pairs v) as [|kv kvs] eqn:Hpairs; [done|].
  rewrite bool_decide_eq_false_2.
  - rewrite SplitByte_Join; [apply parseQuery_pairs_render| |done].
    apply Forall_forall. intros item Hitem.
    apply list_elem_of_fmap in Hitem as (kv' & -> & _). by apply render_free.
  - destruct kvs as [|kv' kvs]; [apply render_nonempty|].
    rewrite !fmap_cons, Join_cons by done. intros H.
    apply str_app_eq_nil in H as [H _]. by apply render_nonempty in H.
Qed.

Lemma ParseQuery_Encode_at_key (v : url.Values) :
  (url.ParseQuery (url.Encode v)).2 = None ∧
  ∀ k, url.at_key (url.ParseQuery (url.Encode v)).1 k = url.at_key v k.
Proof.
  rewrite ParseQuery_Encode_pairs. split; [done|]. intros k. cbn [fst].
  by rewrite at_key_foldl_Add_pairs, values_of_pairs.
Qed.

(** X1.  Parsing the query string that [Encode] writes for a map never
    fails and gives back, under every key, the values of the map in their
    order: the characters that [QueryEscape] escapes do not disturb the
    splitting at [&] and [=]. *)
Theorem ParseQuery_Encode (v : url.Values) :
  ∃ v', url.ParseQuery (url.Encode v) = (v', None) ∧
        nonempty_values v' ∧
        ∀ k, url.at_key v' k = url.at_key v k.
Proof.
  eexists. split; [apply ParseQuery_Encode_pairs|]. split.
  - apply nonempty_values_foldl_Add, nonempty_values_empty.
  - intros k. rewrite at_key_foldl_Add_pairs, values_of_pairs. done.
Qed.

(** ** The errors of [fullURL] *)

Lemma fails_outside_foreign {A : Type} pkg msg : fails_outside (@foreign A pkg msg).
Proof. unfold foreign. simpl. eauto. Qed.

Lemma fails_outside_Ok {A : Type} (a : A) : fails_outside (Ok a).
Proof. done. Qed.

Lemma fails_outside_bind {A B : Type} (r : result A) (k : A → result B) :
  fails_outside r → (∀ a, fails_outside (k a)) → fails_outside (r ≫= k).
Proof. destruct r as [a|e]; simpl; [intros _ Hk; apply Hk|done]. Qed.

Create HintDb outside.
#[local] Hint Resolve fails_outside_foreign fails_outside_Ok : outside.

Ltac outside :=
  repeat first
    [ progress auto with outside
    | apply fails_outside_bind; [|intros ?]
    | match goal with
      | |- fails_outside (let '(_, _) := ?x in _) => destruct x
      | |- fails_outside (if ?b then _ else _) => destruct b
      | |- fails_outside (match ?x with _ => _ end) => destruct x
      end ].

Lemma unescape_check_outside s mode : fails_outside (url.unescape_check s mode).
Proof.
  assert (H : ∀ n s, (String.length s ≤ n)%nat →
                     fails_outside (url.unescape_check s mode)).
  { clear s. induction n as [|n IH]; intros [|c s] Hlen; simpl in Hlen;
      try done; try lia.
    cbn [url.unescape_check].
    destruct (Char.eqb c "%").
    - destruct s as [|a [|b rest]]; try apply fails_outside_foreign.
      repeat (case_match; try apply fails_outside_foreign).
      apply IH. simpl in Hlen. lia.
    - repeat (case_match; try apply fails_outside_foreign); apply IH; lia. }
  by apply (H (String.length s)).
Qed.

Lemma unescape_outside s mode : fails_outside (url.unescape s mode).
Proof.
  unfold url.unescape. apply fails_outside_bind; [apply unescape_check_outside|done].
Qed.
#[local] Hint Resolve unescape_check_outside unescape_outside : outside.

Lemma getScheme_from_outside rawURL i s :
  fails_outside (url.getScheme_from rawURL i s).
Proof.
  revert i. induction s as [|c s IH]; intros i; [done|].
  cbn [url.getScheme_from]. repeat case_match; auto with outside.
Qed.
#[local] Hint Resolve getScheme_from_outside : outside.

Lemma parseHost_outside host : fails_outside (url.parseHost host).
Proof. unfold url.parseHost. outside. Qed.
#[local] Hint Resolve parseHost_outside : outside.

Lemma parseAuthority_outside authority :
  fails_outside (url.parseAuthority authority).
Proof. unfold url.parseAuthority. outside. Qed.
#[local] Hint Resolve parseAuthority_outside : outside.

Lemma setPath_outside (u : url.URL) p : fails_outside (url.setPath u p).
Proof. unfold url.setPath. outside. Qed.

Lemma setFragment_outside (u : url.URL) f : fails_outside (url.setFragment u f).
Proof. unfold url.setFragment. outside. Qed.
#[local] Hint Resolve setPath_outside setFragment_outside : outside.

Lemma parse_outside rawURL viaRequest : fails_outside (url.parse rawURL viaRequest).
Proof.
  unfold url.parse, url.getScheme.
  repeat first
    [ progress auto with outside
    | apply fails_outside_bind; [|intros ?]
    | match goal with
      | |- fails_outside (let '(_, _) := ?x in _) => destruct x as [? ?]
      | |- fails_outside (if ?b then _ else _) => destruct b
      | |- context [let '(_, _) := ?x in _] => destruct x as [? ?]
      | |- context [Strings.Index ?a ?b] => destruct (Strings.Index a b)
      end ].
Qed.
#[local] Hint Resolve parse_outside : outside.

(** Every error of [url.Parse] is an error of [net/url]. *)
Lemma Parse_outside rawURL : fails_outside (url.Parse rawURL).
Proof.
  unfold url.Parse. destruct (Strings.Cut rawURL "#") as [[u frag] ?].
  apply fails_outside_bind; [auto with outside|]. intros url.
  case_match; auto with outside.
Qed.

Section resolution.
Context {World any : Type} `{!Marshaler any}.
Implicit Types c : @Client World any.

Lemma fullURL_fails_origin c path e :
  fullURL c path = Err e → ∃ prefix f, e = Errorf prefix (External f).
Proof.
  unfold fullURL. case_bool_decide.
  - pose proof (Parse_outside path) as Hout.
    destruct (url.Parse path) as [u|e']; [done|]. destruct Hout as [f ->].
    intros [= <-]. eauto.
  - pose proof (Parse_outside (baseURL c)) as Hout.
    destruct (url.Parse (baseURL c)) as [u|e']; [done|]. destruct Hout as [f ->].
    intros [= <-]. eauto.
Qed.

(** X2.  [fullURL] parses one text only: the path when the client has no
    base URL, the base URL otherwise.  It succeeds exactly when [url.Parse]
    accepts that text; with a base URL no path can make it fail.  When it
    fails, its error is the error of [url.Parse] (an error of [net/url])
    wrapped behind the prefix of the branch, so it is no [HTTPError] and does
    not match [ErrNotOK]. *)
Theorem fullURL_fails_with_parse c path :
  let bare := bool_decide (baseURL c = EmptyString) in
  let prefix := if bare then "invalid URL: " else "invalid baseURL: " in
  match url.Parse (if bare then path else baseURL c) with
  | Ok _ => ∃ full, fullURL c path = Ok full
  | Err e =>
      fullURL c path = Err (Errorf prefix e) ∧
      (∃ f, e = External f) ∧
      errors.Is (Errorf prefix e) ErrNotOK = false ∧
      errors.As_HTTPError (Errorf prefix e) = None
  end.
Proof.
  intros bare prefix. subst bare prefix. unfold fullURL.
  pose proof (Parse_outside (if bool_decide (baseURL c = EmptyString)
                             then path else baseURL c)) as Hout.
  case_bool_decide as Hbase.
  - destruct (url.Parse path) as [u|e]; [eauto|].
    destruct Hout as [f ->]. eauto.
  - destruct (url.Parse (baseURL c)) as [u|e]; [eauto|].
    destruct Hout as [f ->]. eauto.
Qed.

Lemma nonempty_values_Header_Add (h : http.MIMEHeader) k v :
  nonempty_values h → nonempty_values (http.Header_Add h k v).
Proof. apply nonempty_values_insert_snoc. Qed.

Lemma nonempty_values_Add (m : url.Values) k v :
  nonempty_values m → nonempty_values (url.Add m k v).
Proof. apply nonempty_values_insert_snoc. Qed.

Lemma built_nonempty_values c :
  built c → nonempty_values (params c) ∧ nonempty_values (headers c).
Proof.
  induction 1 as [| | c k v _ [IHp IHh] | c k v _ [IHp IHh] | | |
                  |c ctx method path w _ IH];
    try done; try (split; apply nonempty_values_empty).
  - split; [by apply nonempty_values_Add|done].
  - split; [done|by apply nonempty_values_Header_Add].
  - pose proof (do_outcome c ctx method path w) as Hout.
    destruct (do c ctx method path w) as [[r c'] w']. simpl.
    by inversion Hout; subst.
Qed.

(** X3.  Every client a program can hold (built by [New] and the chainable
    methods, or left by a request) has header keys in canonical form and no
    key, of a header or of a query parameter, with an empty list of
    values. *)
Theorem built_maps_well_formed c :
  built c →
  canonical_keys (headers c) ∧
  nonempty_values (headers c) ∧
  nonempty_values (params c).
Proof.
  intros Hbuilt. split; [by apply built_canonical_keys|].
  by destruct (built_nonempty_values c Hbuilt).
Qed.

(** Cutting a URL text at its first [#] and then at its first [?], as
    [url.Parse] does, gives back the query string that was written into it. *)
Lemma Cut_query_back hier query (fragment : bool) escaped :
  free_of "?#" hier = true → free_of "?#" query = true →
  Strings.Cut
    (Strings.Cut (hier +:+ ("?" +:+ query) +:+
                  (if fragment then "#" +:+ escaped else EmptyString)) "#").1.1 "?"
  = (hier, query, true).
Proof.
  intros Hhier Hquery.
  assert (Hfree : free_of "#" (hier +:+ "?" +:+ query) = true).
  { rewrite !free_of_app.
    rewrite (free_of_one "?#" "#" hier), (free_of_one "?#" "#" query) by done.
    done. }
  assert (Hcut : (Strings.Cut (hier +:+ ("?" +:+ query) +:+
                     (if fragment then "#" +:+ escaped else EmptyString)) "#").1.1
                 = hier +:+ "?" +:+ query).
  { destruct fragment.
    - replace (hier +:+ ("?" +:+ query) +:+ "#" +:+ escaped)
        with ((hier +:+ "?" +:+ query) +:+ String "#"%char escaped)
        by (by rewrite !str_app_assoc).
      by rewrite Cut_first.
    - rewrite !str_app_nil_r, Cut_free by done. done. }
  rewrite Hcut. change (hier +:+ "?" +:+ query) with (hier +:+ String "?"%char query).
  apply Cut_first. by apply (free_of_one "?#").
Qed.

(** X4.  Whenever the text that [fullURL] parses is accepted, the URL that
    [fullURL] returns is the rendering of the parsed URL with its query
    string replaced by the encoding of the parameters; when there is any
    parameter, cutting the returned text as [url.Parse] does (at its first
    [#], then at its first [?]) gives back that query string, which parses
    without an error into, under every key, the values of the path's own
    query string (without a base URL only) followed by the values
    accumulated on the client: keys and values with special characters
    survive the escaping and cannot add or split parameters. *)
Theorem fullURL_query_reads_back c path u :
  let bare := bool_decide (baseURL c = EmptyString) in
  url.Parse (if bare then path else baseURL c) = Ok u →
  let q := if bare then range_add url.Add (params c) (url.Query u) else params c in
  let u' := url.set_RawQuery
              (if bare then u else url.set_Path u (joined_path (url.Path u) path))
              (url.Encode q) in
  fullURL c path = Ok (url.URL_String u') ∧
  (url.nonempty (url.Encode q) = true →
   Strings.Cut (Strings.Cut (url.URL_String u') "#").1.1 "?"
   = (url.String_hier u', url.Encode q, true)) ∧
  url.RawQuery u' = url.Encode q ∧
  (url.ParseQuery (url.Encode q)).2 = None ∧
  ∀ k, url.at_key (url.ParseQuery (url.Encode q)).1 k =
       (if bare then url.at_key (url.Query u) k else []) ++
       url.at_key (params c) k.
Proof.
  intros bare Hparse q u'.
  assert (Hfull : fullURL c path = Ok (url.URL_String u')).
  { subst bare q u'. unfold fullURL. by case_bool_decide; rewrite Hparse. }
  assert (Hhier : free_of "?#" (url.String_hier u') = true).
  { subst bare q u'. case_bool_decide.
    - apply (String_hier_parsed path u EmptyString _ Hparse).
    - apply (String_hier_parsed (baseURL c) u _ _ Hparse). }
  split; [done|]. split.
  { intros Hq.
    assert (Hstring : url.URL_String u' =
              url.String_hier u' +:+ ("?" +:+ url.Encode q) +:+
              (if url.nonempty (url.Fragment u)
               then "#" +:+ url.EscapedFragment u else EmptyString)).
    { subst bare q u'. rewrite URL_String_query_exact.
      case_bool_decide; rewrite Hq, orb_true_r; done. }
    rewrite Hstring. apply Cut_query_back; [done|apply Encode_free]. }
  split; [done|].
  destruct (ParseQuery_Encode_at_key q) as [Herr Hv]. split; [done|].
  intros k. rewrite Hv. subst bare q. case_bool_decide; [|done].
  by rewrite at_key_range_add.
Qed.

End resolution.

(** ** The request that [do] builds *)

Lemma nonempty_values_range_add_in add (l : list (string * list string))
    (acc : gmap string (list string)) :
  (∀ m k v, nonempty_values m → nonempty_values (add m k v)) →
  nonempty_values acc → nonempty_values (range_add_in add l acc).
Proof.
  intros Hadd. unfold range_add_in. revert acc.
  induction l as [|[k vals] l IH]; intros acc Hacc; [done|].
  cbn [foldl]. apply IH. cbn [fst snd]. clear IH. revert acc Hacc.
  induction vals as [|v vals IHv]; intros acc Hacc; [done|].
  cbn [foldl]. by apply IHv, Hadd.
Qed.

(** Copying well-formed headers onto the empty header map of a new request,
    in any order, gives the same headers. *)
Lemma range_Header_onto_empty (hs : http.MIMEHeader) l :
  canonical_keys hs → nonempty_values hs → l ≡ₚ map_to_list hs →
  range_add_in http.Header_Add l ∅ = hs.
Proof.
  intros Hcanon Hne Hperm. apply nonempty_values_ext; [|done|].
  - apply nonempty_values_range_add_in; [|apply nonempty_values_empty].
    intros m k v. apply nonempty_values_insert_snoc.
  - intros k. pose proof (at_key_range_Header_any_order hs ∅ l k Hcanon Hperm) as Hk.
    unfold http.at_key in Hk. by rewrite lookup_empty in Hk.
Qed.

Section requests.
Context {World any : Type} `{!Marshaler any}.
Implicit Types c : @Client World any.

(** X5.  A request built for a client without a body carries exactly the
    headers of the client (no [Content-Type] is added), no body, the
    context it was given and the method, [GET] standing in for the empty
    method. *)
Theorem request_without_body c ctx method full req :
  built c → body c = None →
  request c ctx method full = Ok req →
  http.Header req = headers c ∧
  http.Body req = None ∧
  http.ctx req = ctx ∧
  http.Method req = (if bool_decide (method = EmptyString) then "GET" else method).
Proof.
  intros Hbuilt Hbody. unfold request. rewrite Hbody. cbn [mbind result_bind].
  unfold http.NewRequestWithContext.
  destruct (negb _); [done|]. destruct ctx as [|id]; [done|].
  destruct (url.Parse full) as [u|e]; [|done]. cbn [mbind result_bind].
  rewrite bool_decide_eq_false_2 by (by intros [? ?]). cbn [andb].
  intros [= <-]. cbn [http.Header http.Body http.ctx http.Method].
  split; [|done]. unfold range_add.
  destruct (built_nonempty_values c Hbuilt) as [_ Hne].
  apply range_Header_onto_empty; [by apply built_canonical_keys|done|done].
Qed.

(** X6.  A body set on the client is sent, whatever the method, [GET]
    included: when [json.Marshal] accepts the body, the method is a valid
    token, the context is not nil and the URL parses, a request is built,
    and it carries the bytes of [json.Marshal], the method, the context and
    the parsed URL.  A body that [json.Marshal] refuses ends the
    construction of the request with the error of [json.Marshal], whatever
    the context, the method and the URL are. *)
Theorem request_sends_body c v :
  body c = Some v →
  (∀ e ctx method full,
     json_Marshal v = Err e → request c ctx method full = Err e) ∧
  (∀ b id method full u,
     json_Marshal v = Ok b →
     http.validMethod (if bool_decide (method = EmptyString) then "GET" else method)
       = true →
     url.Parse full = Ok u →
     ∃ req,
       request c (http.liveContext id) method full = Ok req ∧
       http.Body req = Some b ∧
       http.Method req = (if bool_decide (method = EmptyString) then "GET" else method) ∧
       http.ctx req = http.liveContext id ∧
       http.URL req =
         url.mkURL (url.Scheme u) (url.Opaque u) (url.User u)
           (http.removeEmptyPort (url.Host u)) (url.Path u) (url.RawPath u)
           (url.OmitHost u) (url.ForceQuery u) (url.RawQuery u)
           (url.Fragment u) (url.RawFragment u)).
Proof.
  intros Hbody. split.
  - intros e ctx method full Hm. by apply request_marshal_failed with v.
  - intros b id method full u Hm Hvalid Hparse.
    unfold request. rewrite Hbody, Hm. cbn [mbind result_bind].
    unfold http.NewRequestWithContext. cbv zeta.
    rewrite Hvalid, Hparse. cbn [negb mbind result_bind].
    eexists. split; [reflexivity|]. by case_match.
Qed.

(** X7.  [Get] and [Post] with the nil context do not panic and do not
    reach the transport: once the URL is resolved and the body, if any, is
    marshalled, they return the error of [http.NewRequestWithContext] and
    leave the client and the world as they were. *)
Theorem Get_Post_nil_context c path w full :
  fullURL c path = Ok full →
  (∀ v, body c = Some v → ∃ b, json_Marshal v = Ok b) →
  let e := External (mkForeignError "net/http" "nil Context") in
  Get c http.nilContext path w = (mkResp None (Some e), c, w) ∧
  Post c http.nilContext path w = (mkResp None (Some e), c, w).
Proof.
  intros Hfull Hbody e.
  assert (Hreq : ∀ method, http.validMethod method = true →
                           method ≠ EmptyString →
                           request c http.nilContext method full = Err e).
  { intros method Hvalid Hne. unfold request.
    assert (∃ payload,
              match body c with
              | Some v => b ← json_Marshal v; Ok (Some b)
              | None => Ok None
              end = Ok payload) as [payload ->].
    { destruct (body c) as [v|]; [|eauto].
      destruct (Hbody v eq_refl) as [b ->]. eauto. }
    cbn [mbind result_bind]. unfold http.NewRequestWithContext.
    rewrite (bool_decide_eq_false_2 (method = EmptyString)) by done.
    by rewrite Hvalid. }
  unfold Get, Post, do. rewrite Hfull.
  rewrite !Hreq by done. done.
Qed.

End requests.

(** ** Calls of the transport *)

(** X8.  [do] never retries: over a transport that logs its requests, a
    call of [do] adds exactly the one request it built to the log, and
    nothing when the URL or the request could not be built; this is so
    whatever the transport answers, an error and a status outside 2xx
    included. *)
Theorem do_sends_at_most_once {any : Type} `{!Marshaler any}
    (c : @Client (list http.Request) any) reply ctx method path w :
  let c' := HTTPClient c (recording reply) in
  match fullURL c path ≫= request c ctx method with
  | Ok req => (do c' ctx method path w).2 = req :: w
  | Err _ => (do c' ctx method path w).2 = w
  end.
Proof.
  intros c'. subst c'. unfold do.
  change (fullURL (HTTPClient c ?t) path) with (fullURL c path).
  destruct (fullURL c path) as [full|e]; cbn [mbind result_bind]; [|done].
  change (request (HTTPClient c ?t) ctx method full)
    with (request c ctx method full).
  destruct (request c ctx method full) as [req|e]; [|done].
  cbn [client HTTPClient]. unfold recording.
  destruct (reply req w) as [h|e]; [|done].
  destruct (_ || _); [|done].
  by destruct (http.ReadAll (http.RespBody h)).1 as [data [e|]].
Qed.

(** ** The wrapper and its accessors *)

Section accessors.
Context {World any : Type} `{!Marshaler any} {T : Type} `{!Decoder T}.
Implicit Types c : @Client World any.

(** X9.  Over a transport that answers as the client of [net/http] does,
    with an error or with a response that carries a body, the wrapper that
    [do] returns holds a response or an error, never both and never
    neither; it holds a response exactly when [Error] is nil, and then the
    status of the response is 2xx.  So no accessor finds the response
    missing: [Raw], [Body] and [Into] do not panic on it.  (A response
    without a body, on which [Raw] and [Into] would panic, is outside the
    responses modelled here.) *)
Theorem do_wrapper_well_formed c ctx method path w :
  let r := (do c ctx method path w).1.1 in
  (is_Some (resp r) ↔ err r = None) ∧
  (∀ h, resp r = Some h → is_2xx (http.StatusCode h)) ∧
  Raw r ≠ Panics ∧ Response_Body r ≠ Panics ∧ Into (T := T) r ≠ Panics.
Proof.
  intros r. subst r. pose proof (do_outcome c ctx method path w) as Hout.
  destruct (do c ctx method path w) as [[r c'] w']. cbn [fst].
  inversion Hout; subst; cbn [resp err]; (split; [|split]);
    try (intros ? [= <-]; done); try done;
    try (split; [by intros [? [=]]|done]).
  - split_and!; try done.
    + unfold Raw. cbn [err resp]. by destruct (http.ReadAll _) as [[? ?] ?].
    + unfold Into. cbn [err resp]. by destruct (json_Decode _ _) as [[? ?] ?].
Qed.

(** X10.  [Raw] on a response whose body is still open returns all the
    bytes of the stream, together with the error of the stream if reading
    broke (the bytes read before are not dropped), and closes the stream: a
    second [Raw] on the same wrapper returns no byte and the error of a
    read from a closed body. *)
Theorem Raw_reads_once code status data failure :
  let r := @mkResp (Some (http.mkResponse code status
                            (http.mkReadCloser data failure false))) None in
  ∃ r', Raw r = Returns ((Some data, failure), r') ∧
        (∃ h', resp r' = Some h' ∧ http.closed (http.RespBody h') = true ∧
               http.StatusCode h' = code ∧ http.Status h' = status) ∧
        Raw r' = Returns ((Some EmptyString, Some read_on_closed), r').
Proof. intros r. eexists. split; [reflexivity|]. split; [eauto|reflexivity]. Qed.

(** X11.  [Into] closes the body whatever the decoder made of it, so that
    the bytes the decoder left unread are lost: a [Raw] after [Into] returns
    no byte and the error of a read from a closed body.  [Body] hands the
    stream out as it is and closes nothing. *)
Theorem Into_closes_stream (h : http.Response) :
  let r := @mkResp (Some h) None in
  Response_Body r = Returns (Some (http.RespBody h), None) ∧
  ∃ res e r',
    Into (T := T) r = Returns ((res, e), r') ∧
    (json_Decode (http.RespBody h) zero).1 = (res, e) ∧
    (∃ h', resp r' = Some h' ∧ http.closed (http.RespBody h') = true) ∧
    Raw r' = Returns ((Some EmptyString, Some read_on_closed), r').
Proof.
  intros r. split; [done|]. unfold Into. cbn [err resp r].
  destruct (json_Decode (http.RespBody h) zero) as [[res e] stream].
  exists res, e. eexists. split; [reflexivity|]. split; [done|].
  split; [eauto|reflexivity].
Qed.

End accessors.

(** ** The chain of an error *)

(** X12.  An error that has an [HTTPError] anywhere in its chain, however
    often it was wrapped with [%w], matches [ErrNotOK]. *)
Theorem HTTPError_in_chain_matches_ErrNotOK (e : error) (he : HTTPError) :
  errors.As_HTTPError e = Some he → errors.Is e ErrNotOK = true.
Proof.
  induction e as [|he'|prefix e IH|f]; [done|done| |done].
  cbn [errors.As_HTTPError errors.Is]. intros He. by apply IH.
Qed.

(** ** The keys of the headers *)

Lemma canonical_byte_lower (upper : bool) (c : ascii) :
  let f (c : ascii) :=
    if upper && Char.is_lower c then Char.to_upper c
    else if negb upper && Char.is_upper c then Char.to_lower c
    else c in
  f (Char.to_lower c) = f c ∧
  http.validHeaderFieldByte (Char.to_lower c) = http.validHeaderFieldByte c.
Proof. destruct upper, c as [[] [] [] [] [] [] [] []]; vm_compute; done. Qed.

Lemma canonical_from_ToLower upper s :
  http.canonical_from upper (Strings.ToLower s) = http.canonical_from upper s.
Proof.
  revert upper. induction s as [|c s IH]; intros upper; [done|].
  cbn [Strings.ToLower http.canonical_from]. cbv zeta.
  destruct (canonical_byte_lower upper c) as [Hf _]. cbv zeta in Hf.
  rewrite Hf. f_equal. apply IH.
Qed.

Lemma valid_ToLower s :
  Strings.all http.validHeaderFieldByte (Strings.ToLower s)
  = Strings.all http.validHeaderFieldByte s.
Proof.
  induction s as [|c s IH]; [done|]. cbn [Strings.ToLower Strings.all].
  destruct (canonical_byte_lower true c) as [_ ->]. by rewrite IH.
Qed.

(** Keys of token bytes that differ in the case of their letters only have
    the same canonical form. *)
Lemma CanonicalMIMEHeaderKey_case k1 k2 :
  Strings.all http.validHeaderFieldByte k1 = true →
  Strings.ToLower k1 = Strings.ToLower k2 →
  http.CanonicalMIMEHeaderKey k1 = http.CanonicalMIMEHeaderKey k2.
Proof.
  intros Hvalid Hlower. unfold http.CanonicalMIMEHeaderKey.
  rewrite <-(valid_ToLower k2), <-Hlower, valid_ToLower, Hvalid.
  by rewrite <-(canonical_from_ToLower true k1), Hlower, canonical_from_ToLower.
Qed.

Section header_keys.
Context {World any : Type} `{!Marshaler any}.
Implicit Types c : @Client World any.

(** X13.  [Header] does not tell apart keys that differ in the case of
    their letters only: for a key made of token bytes, any other spelling of
    it gives the same client with the value filed under the one canonical
    key.  A key with a byte that is no token byte (a space, say) is kept as
    it is written. *)
Theorem Header_key_case_insensitive c k1 k2 v :
  Strings.all http.validHeaderFieldByte k1 = true →
  Strings.ToLower k1 = Strings.ToLower k2 →
  Header c k1 v = Header c k2 v ∧
  http.at_key (headers (Header c k1 v)) (http.CanonicalMIMEHeaderKey k2)
  = http.at_key (headers c) (http.CanonicalMIMEHeaderKey k2) ++ [v] ∧
  (∀ k, Strings.all http.validHeaderFieldByte k = false →
        headers (Header c k v) !! k = Some (http.at_key (headers c) k ++ [v])).
Proof.
  intros Hvalid Hlower.
  pose proof (CanonicalMIMEHeaderKey_case k1 k2 Hvalid Hlower) as Hcanon.
  split; [|split].
  - unfold Header, http.Header_Add. cbv zeta. by rewrite Hcanon.
  - cbn [headers Header]. rewrite at_key_Header_Add, Hcanon.
    by rewrite decide_True.
  - intros k Hk. cbn [headers Header]. unfold http.Header_Add. cbv zeta.
    unfold http.CanonicalMIMEHeaderKey. rewrite Hk. by rewrite lookup_insert_eq.
Qed.

Lemma at_key_foldl_Header c k vs k' :
  http.at_key (headers (foldl (λ c v, Header c k v) c vs)) k' =
  http.at_key (headers c) k' ++
  (if decide (k' = http.CanonicalMIMEHeaderKey k) then vs else []).
Proof.
  revert c. induction vs as [|v vs IH]; intros c; cbn [foldl].
  - case_decide; by rewrite (right_id_L [] (++)).
  - rewrite IH. cbn [headers Header]. rewrite at_key_Header_Add.
    case_decide; rewrite <-(assoc_L (++)); [done|].
    by rewrite !(right_id_L [] (++)).
Qed.

Lemma built_foldl_Header c k vs :
  built c → built (foldl (λ c v, Header c k v) c vs).
Proof.
  revert c. induction vs as [|v vs IH]; intros c Hc; [done|].
  cbn [foldl]. by apply IH, built_Header.
Qed.

Lemma body_foldl_Header c k vs :
  body (foldl (λ c v, Header c k v) c vs) = body c.
Proof. revert c. induction vs as [|v vs IH]; intros c; [done|]. cbn [foldl]. by rewrite IH. Qed.

Lemma request_headers_at_key c ctx method full req k :
  canonical_keys (headers c) →
  request c ctx method full = Ok req →
  http.at_key (http.Header req) k =
  (if bool_decide (is_Some (body c)) && bool_decide (k = "Content-Type")
   then ["application/json"] else []) ++ http.at_key (headers c) k.
Proof.
  intros Hcanon. unfold request.
  destruct (match body c with Some v => _ | None => _ end) as [payload|e];
    [|done]. cbn [mbind result_bind]. unfold http.NewRequestWithContext.
  destruct (negb _); [done|]. destruct ctx as [|id]; [done|].
  destruct (url.Parse full) as [u|e]; [|done]. cbn [mbind result_bind].
  intros [= <-]. cbn [http.Header]. unfold range_add.
  rewrite (at_key_range_Header_any_order (headers c) _ _ k Hcanon) by done.
  f_equal.
  rewrite (bool_decide_eq_true_2 (http.Header_Get ∅ "Content-Type" = EmptyString))
    by done.
  rewrite andb_true_r.
  destruct (bool_decide (is_Some (body c))); cbn [andb http.Header]; [|done].
  unfold http.Header_Set, http.at_key.
  case_bool_decide as Hk.
  - subst k. by rewrite lookup_insert_eq.
  - rewrite lookup_insert_ne by done. done.
Qed.

(** X14.  Calling [Header] several times with one key keeps every value:
    the request carries, under the canonical form of the key, the values
    the client already had followed by the new ones in the order of the
    calls, and the headers under the other keys are those of the client
    before the calls. *)
Theorem Header_repeated_key c k vs ctx method full req :
  built c → body c = None →
  request (foldl (λ c v, Header c k v) c vs) ctx method full = Ok req →
  http.at_key (http.Header req) (http.CanonicalMIMEHeaderKey k)
  = http.at_key (headers c) (http.CanonicalMIMEHeaderKey k) ++ vs ∧
  ∀ k', k' ≠ http.CanonicalMIMEHeaderKey k →
        http.at_key (http.Header req) k' = http.at_key (headers c) k'.
Proof.
  intros Hbuilt Hbody Hreq.
  assert (Hat : ∀ k', http.at_key (http.Header req) k' =
                      http.at_key (headers c) k' ++
                      (if decide (k' = http.CanonicalMIMEHeaderKey k)
                       then vs else [])).
  { intros k'. rewrite (request_headers_at_key _ _ _ _ _ k' (built_canonical_keys _
                          (built_foldl_Header c k vs Hbuilt)) Hreq).
    rewrite body_foldl_Header, Hbody.
    rewrite bool_decide_eq_false_2 by (by intros [? ?]).
    apply at_key_foldl_Header. }
  split.
  - by rewrite Hat, decide_True.
  - intros k' Hk'. by rewrite Hat, decide_False, (right_id_L [] (++)).
Qed.

End header_keys.

(** ** The order of a [range] over a map *)

Lemma range_Header_any_order (hs acc : http.MIMEHeader) l :
  canonical_keys hs → nonempty_values hs → nonempty_values acc →
  l ≡ₚ map_to_list hs →
  range_add_in http.Header_Add l acc = range_add http.Header_Add hs acc.
Proof.
  intros Hcanon Hhs Hacc Hperm. unfold range_add.
  assert (Hadd : ∀ (m : http.MIMEHeader) k v,
             nonempty_values m → nonempty_values (http.Header_Add m k v)).
  { intros m k v. apply nonempty_values_insert_snoc. }
  apply nonempty_values_ext; try by apply nonempty_values_range_add_in.
  intros k.
  pose proof (at_key_range_Header_any_order hs acc l k Hcanon Hperm) as H1.
  pose proof (at_key_range_Header_any_order hs acc (map_to_list hs) k Hcanon
                (reflexivity _)) as H2.
  unfold http.at_key in H1, H2. by rewrite H1, H2.
Qed.

Section range_order.
Context {World any : Type} `{!Marshaler any}.
Implicit Types c : @Client World any.

(** X15.  Go leaves open the order in which the loop of [fullURL] meets
    the query parameters of the client; the URL is the same for every
    order. *)
Theorem fullURL_any_range_order c path order :
  order ≡ₚ map_to_list (params c) →
  fullURL_in order c path = fullURL c path.
Proof.
  intros Hperm. unfold fullURL_in, fullURL.
  case_bool_decide; [|done].
  destruct (url.Parse path) as [u|e]; [|done]. cbv zeta.
  by rewrite (Encode_range_any_order (params c) (url.Query u) order Hperm).
Qed.

(** X16.  Likewise for the loop of [do] that copies the headers of the
    client onto the request: for every client a program can hold, the
    request is the same for every order in which the loop meets them. *)
Theorem request_any_range_order c ctx method full order :
  built c →
  order ≡ₚ map_to_list (headers c) →
  request_in order c ctx method full = request c ctx method full.
Proof.
  intros Hbuilt Hperm. unfold request_in, request.
  destruct (match body c with Some v => _ | None => _ end) as [payload|e];
    [|done]. cbn [mbind result_bind].
  destruct (http.NewRequestWithContext ctx method full payload) as [req|e] eqn:Hnew;
    [|done]. cbn [mbind result_bind]. cbv zeta.
  assert (Hempty : http.Header req = ∅).
  { unfold http.NewRequestWithContext in Hnew.
    destruct (negb _); [done|]. destruct ctx as [|id]; [done|].
    destruct (url.Parse full); simpl in Hnew; by simplify_eq. }
  destruct (built_nonempty_values c Hbuilt) as [_ Hne].
  do 2 f_equal. apply range_Header_any_order; try done.
  - by apply built_canonical_keys.
  - case_match; cbn [http.Header]; rewrite Hempty.
    + unfold http.Header_Set. rewrite insert_empty.
      intros k vals Hk. apply lookup_singleton_Some in Hk as [_ <-]. done.
    + apply nonempty_values_empty.
Qed.

End range_order.

(** ** Telling a status error from the other errors *)

Lemma NewRequestWithContext_outside ctx method full payload :
  fails_outside (http.NewRequestWithContext ctx method full payload).
Proof.
  unfold http.NewRequestWithContext. cbv zeta.
  destruct (negb _); [apply fails_outside_foreign|].
  destruct ctx as [|id]; [apply fails_outside_foreign|].
  apply fails_outside_bind; [apply Parse_outside|done].
Qed.

Section status_errors.
Context {World any : Type} `{!Marshaler any}.
Implicit Types c : @Client World any.

(** An error of the construction of the request is the error of
    [json.Marshal] or an error of [net/http] or [net/url]. *)
Lemma request_error_origin c ctx method full e :
  request c ctx method full = Err e →
  (∃ v, body c = Some v ∧ json_Marshal v = Err e) ∨ (∃ f, e = External f).
Proof.
  unfold request. destruct (body c) as [v|].
  - destruct (json_Marshal v) as [b|e'] eqn:Hm; cbn [mbind result_bind].
    + pose proof (NewRequestWithContext_outside ctx method full (Some b)) as Hout.
      destruct (http.NewRequestWithContext ctx method full (Some b)) as [req|e'];
        cbn [mbind result_bind]; [done|]. intros [= <-]. by right.
    + intros [= <-]. left. eauto.
  - cbn [mbind result_bind].
    pose proof (NewRequestWithContext_outside ctx method full None) as Hout.
    destruct (http.NewRequestWithContext ctx method full None) as [req|e'];
      cbn [mbind result_bind]; [done|]. intros [= <-]. by right.
Qed.

(** X17.  Provided the errors that come from outside (of the transport, of
    [json.Marshal], and of a read of the body of the answer) do not
    themselves match [ErrNotOK], the error of a call matches [ErrNotOK]
    exactly when the transport answered with a status outside 2xx and the
    body of the answer was read to its end: the error is then the
    [HTTPError] built from that answer.  Errors of the URL, of the request,
    of the transport and of the read never match. *)
Theorem ErrNotOK_iff_status_error c ctx method path w e :
  (∀ req e' w1, client c req w = (Err e', w1) → errors.Is e' ErrNotOK = false) →
  (∀ v e', body c = Some v → json_Marshal v = Err e' →
           errors.Is e' ErrNotOK = false) →
  (∀ req h w1 data e',
     client c req w = (Ok h, w1) →
     (http.ReadAll (http.RespBody h)).1 = (data, Some e') →
     errors.Is e' ErrNotOK = false) →
  err (do c ctx method path w).1.1 = Some e →
  errors.Is e ErrNotOK = true ↔
  ∃ full req h w1 data,
    fullURL c path = Ok full ∧
    request c ctx method full = Ok req ∧
    client c req w = (Ok h, w1) ∧
    ¬ is_2xx (http.StatusCode h) ∧
    (http.ReadAll (http.RespBody h)).1 = (data, None) ∧
    e = HTTPErr (HTTPError.mk (http.StatusCode h) (http.Status h)
                   method full data).
Proof.
  intros Htransport Hmarshal Hread.
  pose proof (do_outcome c ctx method path w) as Hout.
  destruct (do c ctx method path w) as [[r c'] w']. cbn [fst].
  assert (Hno : ∀ (P : Prop) e0,
            errors.Is e0 ErrNotOK = false →
            (P → errors.Is e0 ErrNotOK = true) →
            errors.Is e0 ErrNotOK = true ↔ P).
  { intros P e0 He0 HP. split; [by rewrite He0|done]. }
  inversion Hout as [e0 Hfull|full e0 Hfull Hreq|full req e0 w1 Hfull Hreq Hdo
                     |full req h w1 data e0 Hfull Hreq Hdo Hcode Hdata
                     |full req h w1 data Hfull Hreq Hdo Hcode Hdata
                     |full req h w1 Hfull Hreq Hdo Hcode];
    subst; cbn [err]; intros [= <-].
  - apply Hno.
    + apply fullURL_fails_origin in Hfull as (p & f & ->). done.
    + intros (full & ? & ? & ? & ? & Hfull' & _). congruence.
  - apply Hno.
    + apply request_error_origin in Hreq as [(v & Hv & Hm)|[f ->]];
        [by eapply Hmarshal|done].
    + intros (full' & ? & ? & ? & ? & Hfull' & Hreq' & _). congruence.
  - apply Hno; [by eapply Htransport|].
    intros (full' & req' & ? & ? & ? & Hfull' & Hreq' & Hdo' & _). congruence.
  - apply Hno; [by eapply Hread|].
    intros (full' & req' & h' & ? & ? & Hfull' & Hreq' & Hdo' & _ & Hdata' & _).
    congruence.
  - split; [|done]. intros _. by eexists _, _, _, _, _.
Qed.

End status_errors.

(** ** The properties above at concrete clients *)

Lemma built_maps_well_formed_witness :
  let c := Query (Header (Scenario.api (Scenario.replying Scenario.reply_200))
                    "accept" "text/html") "q" "a b" in
  built c ∧
  canonical_keys (headers c) ∧ nonempty_values (headers c) ∧
  nonempty_values (params c).
Proof.
  assert (Hbuilt : built (Query (Header (Scenario.api (Scenario.replying
                            Scenario.reply_200)) "accept" "text/html") "q" "a b")).
  { apply built_Query, built_Header, built_BaseURL, built_New. }
  split; [exact Hbuilt|].
  exact (built_maps_well_formed _ Hbuilt).
Defined.

Lemma fullURL_query_reads_back_witness :
  let c := Query (Scenario.bare (Scenario.replying Scenario.reply_200))
             "a&b" "1=2#3" in
  let q := range_add url.Add (params c) (url.Query Scenario.x_test_url) in
  let full := "https://x.test/a?a%26b=1%3D2%233&x=1" in
  url.Parse "https://x.test/a?x=1" = Ok Scenario.x_test_url ∧
  fullURL c "https://x.test/a?x=1" = Ok full ∧
  url.Encode q = "a%26b=1%3D2%233&x=1" ∧
  fullURL c "https://x.test/a?x=1" =
    Ok (url.URL_String (url.set_RawQuery Scenario.x_test_url (url.Encode q))) ∧
  (url.ParseQuery (url.Encode q)).2 = None ∧
  ∀ k, url.at_key (url.ParseQuery (url.Encode q)).1 k =
       url.at_key (url.Query Scenario.x_test_url) k ++ url.at_key (params c) k.
Proof.
  split; [vm_compute; reflexivity|]. split; [vm_compute; reflexivity|].
  split; [vm_compute; reflexivity|].
  pose proof (fullURL_query_reads_back
                (Query (Scenario.bare (Scenario.replying Scenario.reply_200))
                   "a&b" "1=2#3")
                "https://x.test/a?x=1" Scenario.x_test_url
                ltac:(vm_compute; reflexivity))
    as (Hfull & _ & _ & Herr & Hv).
  exact (conj Hfull (conj Herr Hv)).
Defined.

Lemma request_without_body_witness :
  let c := Header (Scenario.api (Scenario.replying Scenario.reply_200))
             "accept" "text/html" in
  built c ∧ body c = None ∧
  ∃ req,
    request c Scenario.ctx "GET" "https://api.example.com/posts" = Ok req ∧
    http.Header req = headers c ∧ http.Body req = None.
Proof.
  assert (Hbuilt : built (Header (Scenario.api (Scenario.replying
                            Scenario.reply_200)) "accept" "text/html")).
  { apply built_Header, built_BaseURL, built_New. }
  split; [exact Hbuilt|]. split; [reflexivity|].
  eexists. split; [vm_compute; reflexivity|].
  pose proof (request_without_body _ Scenario.ctx "GET"
                "https://api.example.com/posts" _ Hbuilt eq_refl
                ltac:(vm_compute; reflexivity)) as (Hh & Hb & _).
  exact (conj Hh Hb).
Defined.

Lemma request_sends_body_witness :
  let c := Body (Scenario.api (Scenario.replying Scenario.reply_200))
             (Some (Scenario.Flag true)) in
  body c = Some (Scenario.Flag true) ∧
  ∃ req,
    request c Scenario.ctx "GET" "https://api.example.com/posts" = Ok req ∧
    http.Body req = Some "true" ∧ http.Method req = "GET".
Proof.
  split; [reflexivity|].
  destruct (proj2 (request_sends_body
                     (Body (Scenario.api (Scenario.replying Scenario.reply_200))
                        (Some (Scenario.Flag true)))
                     (Scenario.Flag true) eq_refl)
              "true" 0%nat "GET" "https://api.example.com/posts"
              (url.set_Path Scenario.api_url "/posts")
              eq_refl ltac:(vm_compute; reflexivity) ltac:(vm_compute; reflexivity))
    as (req & Hreq & Hb & Hm & _).
  exists req. exact (conj Hreq (conj Hb Hm)).
Defined.

Lemma Get_Post_nil_context_witness :
  let c := Body (Scenario.api (Scenario.replying Scenario.reply_200))
             (Some (Scenario.Flag true)) in
  let e := External (mkForeignError "net/http" "nil Context") in
  fullURL c "/posts" = Ok "https://api.example.com/posts" ∧
  Get c http.nilContext "/posts" [] = (mkResp None (Some e), c, []) ∧
  Post c http.nilContext "/posts" [] = (mkResp None (Some e), c, []).
Proof.
  split; [vm_compute; reflexivity|].
  refine (Get_Post_nil_context
            (Body (Scenario.api (Scenario.replying Scenario.reply_200))
               (Some (Scenario.Flag true)))
            "/posts" [] "https://api.example.com/posts"
            ltac:(vm_compute; reflexivity) _).
  intros v [= <-]. eexists. reflexivity.
Defined.

Lemma HTTPError_in_chain_matches_ErrNotOK_witness :
  let he := HTTPError.mk 404 "404 Not Found" "GET" "https://x.test/a" EmptyString in
  let e := Errorf "loading posts: " (HTTPErr he) in
  errors.As_HTTPError e = Some he ∧ errors.Is e ErrNotOK = true.
Proof.
  split; [reflexivity|].
  exact (HTTPError_in_chain_matches_ErrNotOK
           (Errorf "loading posts: "
              (HTTPErr (HTTPError.mk 404 "404 Not Found" "GET" "https://x.test/a"
                          EmptyString))) _ eq_refl).
Defined.

Lemma Header_key_case_insensitive_witness :
  let c := Scenario.api (Scenario.replying Scenario.reply_200) in
  Strings.all http.validHeaderFieldByte "content-type" = true ∧
  Strings.ToLower "content-type" = Strings.ToLower "CONTENT-Type" ∧
  Header c "content-type" "text/plain" = Header c "CONTENT-Type" "text/plain".
Proof.
  split; [reflexivity|]. split; [reflexivity|].
  exact (proj1 (Header_key_case_insensitive
                  (Scenario.api (Scenario.replying Scenario.reply_200))
                  "content-type" "CONTENT-Type" "text/plain" eq_refl eq_refl)).
Defined.

Lemma Header_repeated_key_witness :
  let c := Header (Scenario.api (Scenario.replying Scenario.reply_200))
             "accept" "text/html" in
  let c' := Header (Header c "Accept" "text/plain") "ACCEPT" "*/*" in
  built c ∧ body c = None ∧
  ∃ req,
    request c' Scenario.ctx "GET" "https://api.example.com/posts" = Ok req ∧
    http.at_key (http.Header req) "Accept" = ["text/html"; "text/plain"; "*/*"].
Proof.
  assert (Hbuilt : built (Header (Scenario.api (Scenario.replying
                            Scenario.reply_200)) "accept" "text/html")).
  { apply built_Header, built_BaseURL, built_New. }
  split; [exact Hbuilt|]. split; [reflexivity|].
  eexists. split; [vm_compute; reflexivity|].
  pose proof (Header_repeated_key _ "Accept" ["text/plain"; "*/*"] Scenario.ctx "GET"
                "https://api.example.com/posts" _ Hbuilt eq_refl
                ltac:(vm_compute; reflexivity)) as [Hk _].
  vm_compute in Hk. exact Hk.
Defined.

Lemma fullURL_any_range_order_witness :
  let c := Query (Query (Scenario.bare (Scenario.replying Scenario.reply_200))
                    "b" "2") "a" "1" in
  let order := reverse (map_to_list (params c)) in
  order ≡ₚ map_to_list (params c) ∧
  fullURL_in order c "https://x.test/a?x=1" = fullURL c "https://x.test/a?x=1".
Proof.
  split; [apply reverse_Permutation|].
  exact (fullURL_any_range_order
           (Query (Query (Scenario.bare (Scenario.replying Scenario.reply_200))
                     "b" "2") "a" "1")
           "https://x.test/a?x=1" _ (reverse_Permutation _)).
Defined.

Lemma request_any_range_order_witness :
  let c := Header (Header (Scenario.api (Scenario.replying Scenario.reply_200))
                     "accept" "text/html") "x-trace" "1" in
  let order := reverse (map_to_list (headers c)) in
  built c ∧ order ≡ₚ map_to_list (headers c) ∧
  request_in order c Scenario.ctx "GET" "https://api.example.com/posts"
  = request c Scenario.ctx "GET" "https://api.example.com/posts".
Proof.
  assert (Hbuilt : built (Header (Header (Scenario.api (Scenario.replying
                            Scenario.reply_200)) "accept" "text/html")
                            "x-trace" "1")).
  { apply built_Header, built_Header, built_BaseURL, built_New. }
  split; [exact Hbuilt|]. split; [apply reverse_Permutation|].
  exact (request_any_range_order _ Scenario.ctx "GET"
           "https://api.example.com/posts" _ Hbuilt (reverse_Permutation _)).
Defined.

Lemma ErrNotOK_iff_status_error_witness :
  let c := Scenario.api Scenario.flaky in
  let e := External (mkForeignError "net" "connection refused") in
  (∀ req e' w1, client c req [] = (Err e', w1) → errors.Is e' ErrNotOK = false) ∧
  err (do c Scenario.ctx "GET" "/posts/0" []).1.1 = Some e ∧
  (errors.Is e ErrNotOK = true ↔
   ∃ full req h w1 data,
     fullURL c "/posts/0" = Ok full ∧
     request c Scenario.ctx "GET" full = Ok req ∧
     client c req [] = (Ok h, w1) ∧
     ¬ is_2xx (http.StatusCode h) ∧
     (http.ReadAll (http.RespBody h)).1 = (data, None) ∧
     e = HTTPErr (HTTPError.mk (http.StatusCode h) (http.Status h)
                    "GET" full data)).
Proof.
  assert (Htransport : ∀ req e' w1,
            client (Scenario.api Scenario.flaky) req [] = (Err e', w1) →
            errors.Is e' ErrNotOK = false).
  { intros req e' w1 [= <- _]. reflexivity. }
  split; [exact Htransport|]. split; [vm_compute; reflexivity|].
  refine (ErrNotOK_iff_status_error (Scenario.api Scenario.flaky)
            Scenario.ctx "GET" "/posts/0" [] _ Htransport _ _
            ltac:(vm_compute; reflexivity)).
  - intros v e' [=].
  - intros req h w1 data e' [=].
Defined.
